(** * Fruit Catcher: the game engine of [src/js/gameEngine.js]

    A shallow embedding of the class [GameEngine] and of the part of the
    browser it talks to (timers, animation frames, [Math.random], [alert] and
    the three registered callbacks), followed by the properties of the engine.

    Conventions of the embedding.
    - JavaScript numbers are modelled exactly: scores, levels, lanes, seconds
      and milliseconds are integers ([Z]); vertical positions, speeds and
      random draws are rationals ([Q]), because [level * 0.5] produces halves.
      Every number the engine computes is a small dyadic rational, which a
      double holds without rounding; only the cumulative sums of the spawn
      probabilities (0.6, 0.9, 1.0 here) differ from their double values in
      the last bit.
    - [this] and the host are one record, [GameEngine], threaded through
      every method: the fields of the class, then the host's live timers and
      animation-frame requests, then the history of what the engine emitted.
    - A callback field is [true] when a function is registered and [false]
      when it is [null]; the registered functions are observers: calling one
      appends an [Event] to [log] and does not call back into the engine.
    - A snapshot handed to [onGameStateUpdate] is recorded by value, as the
      observer sees it during the call.
    - An item is a heap object: [Item.oid] is its identity (the allocation
      number of the object literal in [spawnItem]); [Item.id] is the
      field of that name, [Date.now() + Math.random()]. *)

From Stdlib Require Import ZArith QArith Qabs Qround Ascii String List Lia Lqa Bool.
From stdpp Require Import base gmap list strings sorting.
Import ListNotations.

Open Scope Z_scope.

(** ** Data *)

(** One row of [this.itemTypes]. *)
Module ItemType.
Record t := mk { type : string; score : Z; speed : Q; probability : Q }.
End ItemType.

(** A falling item, as built by [spawnItem]. *)
Module Item.
Record t := mk {
  oid : nat;
  id : Q;
  type : string;
  score : Z;
  speed : Q;
  lane : Z;
  y : Q
}.

Definition set_y (v : Q) (it : t) : t :=
  mk (oid it) (id it) (type it) (score it) (speed it) (lane it) v.
End Item.

(** The values [config.timeLimit] ranges over: a number of seconds, or one of
    the values that are not numbers and that [||] treats as false.  An absent
    field, and an absent [config] (the default [{}]), read as [Undefined]. *)
Inductive JsValue :=
| Undefined
| Null
| False_
| EmptyString
| NaN
| Number (n : Z).

Definition truthy (v : JsValue) : bool :=
  match v with
  | Number n => negb (n =? 0)
  | _ => false
  end.

Module Config.
Record t := mk { timeLimit : JsValue }.
End Config.

(** The argument of [onGameStateUpdate]. *)
Module Snapshot.
Record t := mk {
  basketPosition : Z;
  items : list Item.t;
  timeLimit : Z;
  score : Z;
  level : Z
}.
End Snapshot.

(** What the engine emits, in order.  [Collect] is not a callback: it marks
    an entry into [handleItemCollection]. *)
Inductive Event :=
| StateUpdate (s : Snapshot.t)
| ScoreChange (score level : Z)
| GameEnd (score level : Z)
| Alert (msg : string)
| Collect (it : Item.t).

(** A live timer of the host: the interval of [startTimer], whose callback is
    the countdown, or the timeout of [spawnLoop], whose callback is
    [spawnLoop] again. *)
Inductive Timer :=
| Interval (ms : Z)
| Timeout (ms : Z).

(** The three random numbers one call of [spawnItem] consumes. *)
Record Draw := mkDraw {
  u_lane : Q;   (* Math.random() of the lane *)
  u_type : Q;   (* Math.random() of the category *)
  u_id : Q      (* Date.now() + Math.random() *)
}.

Record GameEngine := mkEngine {
  (* fields of the class *)
  score : Z;
  level : Z;
  timeLimit : Z;
  isGameActive : bool;
  gameTimer : option nat;
  basketPosition : Z;
  items : list Item.t;
  animationId : option nat;
  itemSpawnTimer : option nat;
  onScoreChange : bool;
  onGameEnd : bool;
  onGameStateUpdate : bool;
  (* host: timers (setInterval and setTimeout share their handles),
     animation-frame requests, object allocation *)
  timers : gmap nat Timer;
  nextTimer : nat;
  frames : gset nat;
  nextFrame : nat;
  nextOid : nat;
  (* history *)
  log : list Event
}.

Definition itemTypes : list ItemType.t :=
  [ ItemType.mk "apple" 100 5 0.6;
    ItemType.mk "orange" 200 7 0.3;
    ItemType.mk "bomb" 0 6 0.1 ].

(** [new GameEngine()] in a fresh page: the host numbers its handles from 1. *)
Definition new_GameEngine : GameEngine :=
  {| score := 0; level := 1; timeLimit := 0; isGameActive := false;
     gameTimer := None; basketPosition := 1; items := [];
     animationId := None; itemSpawnTimer := None;
     onScoreChange := false; onGameEnd := false; onGameStateUpdate := false;
     timers := ∅; nextTimer := 1; frames := ∅; nextFrame := 1; nextOid := 0;
     log := [] |}.

(** ** Field updates *)

Definition set_score (v : Z) (e : GameEngine) : GameEngine :=
  mkEngine v (level e) (timeLimit e) (isGameActive e) (gameTimer e)
    (basketPosition e) (items e) (animationId e) (itemSpawnTimer e)
    (onScoreChange e) (onGameEnd e) (onGameStateUpdate e)
    (timers e) (nextTimer e) (frames e) (nextFrame e) (nextOid e) (log e).

Definition set_level (v : Z) (e : GameEngine) : GameEngine :=
  mkEngine (score e) v (timeLimit e) (isGameActive e) (gameTimer e)
    (basketPosition e) (items e) (animationId e) (itemSpawnTimer e)
    (onScoreChange e) (onGameEnd e) (onGameStateUpdate e)
    (timers e) (nextTimer e) (frames e) (nextFrame e) (nextOid e) (log e).

Definition set_timeLimit (v : Z) (e : GameEngine) : GameEngine :=
  mkEngine (score e) (level e) v (isGameActive e) (gameTimer e)
    (basketPosition e) (items e) (animationId e) (itemSpawnTimer e)
    (onScoreChange e) (onGameEnd e) (onGameStateUpdate e)
    (timers e) (nextTimer e) (frames e) (nextFrame e) (nextOid e) (log e).

Definition set_isGameActive (v : bool) (e : GameEngine) : GameEngine :=
  mkEngine (score e) (level e) (timeLimit e) v (gameTimer e)
    (basketPosition e) (items e) (animationId e) (itemSpawnTimer e)
    (onScoreChange e) (onGameEnd e) (onGameStateUpdate e)
    (timers e) (nextTimer e) (frames e) (nextFrame e) (nextOid e) (log e).

Definition set_gameTimer (v : option nat) (e : GameEngine) : GameEngine :=
  mkEngine (score e) (level e) (timeLimit e) (isGameActive e) v
    (basketPosition e) (items e) (animationId e) (itemSpawnTimer e)
    (onScoreChange e) (onGameEnd e) (onGameStateUpdate e)
    (timers e) (nextTimer e) (frames e) (nextFrame e) (nextOid e) (log e).

Definition set_basketPosition (v : Z) (e : GameEngine) : GameEngine :=
  mkEngine (score e) (level e) (timeLimit e) (isGameActive e) (gameTimer e)
    v (items e) (animationId e) (itemSpawnTimer e)
    (onScoreChange e) (onGameEnd e) (onGameStateUpdate e)
    (timers e) (nextTimer e) (frames e) (nextFrame e) (nextOid e) (log e).

Definition set_items (v : list Item.t) (e : GameEngine) : GameEngine :=
  mkEngine (score e) (level e) (timeLimit e) (isGameActive e) (gameTimer e)
    (basketPosition e) v (animationId e) (itemSpawnTimer e)
    (onScoreChange e) (onGameEnd e) (onGameStateUpdate e)
    (timers e) (nextTimer e) (frames e) (nextFrame e) (nextOid e) (log e).

Definition set_animationId (v : option nat) (e : GameEngine) : GameEngine :=
  mkEngine (score e) (level e) (timeLimit e) (isGameActive e) (gameTimer e)
    (basketPosition e) (items e) v (itemSpawnTimer e)
    (onScoreChange e) (onGameEnd e) (onGameStateUpdate e)
    (timers e) (nextTimer e) (frames e) (nextFrame e) (nextOid e) (log e).

Definition set_itemSpawnTimer (v : option nat) (e : GameEngine) : GameEngine :=
  mkEngine (score e) (level e) (timeLimit e) (isGameActive e) (gameTimer e)
    (basketPosition e) (items e) (animationId e) v
    (onScoreChange e) (onGameEnd e) (onGameStateUpdate e)
    (timers e) (nextTimer e) (frames e) (nextFrame e) (nextOid e) (log e).

Definition set_onScoreChange (v : bool) (e : GameEngine) : GameEngine :=
  mkEngine (score e) (level e) (timeLimit e) (isGameActive e) (gameTimer e)
    (basketPosition e) (items e) (animationId e) (itemSpawnTimer e)
    v (onGameEnd e) (onGameStateUpdate e)
    (timers e) (nextTimer e) (frames e) (nextFrame e) (nextOid e) (log e).

Definition set_onGameEnd (v : bool) (e : GameEngine) : GameEngine :=
  mkEngine (score e) (level e) (timeLimit e) (isGameActive e) (gameTimer e)
    (basketPosition e) (items e) (animationId e) (itemSpawnTimer e)
    (onScoreChange e) v (onGameStateUpdate e)
    (timers e) (nextTimer e) (frames e) (nextFrame e) (nextOid e) (log e).

Definition set_onGameStateUpdate (v : bool) (e : GameEngine) : GameEngine :=
  mkEngine (score e) (level e) (timeLimit e) (isGameActive e) (gameTimer e)
    (basketPosition e) (items e) (animationId e) (itemSpawnTimer e)
    (onScoreChange e) (onGameEnd e) v
    (timers e) (nextTimer e) (frames e) (nextFrame e) (nextOid e) (log e).

Definition set_timers (v : gmap nat Timer) (e : GameEngine) : GameEngine :=
  mkEngine (score e) (level e) (timeLimit e) (isGameActive e) (gameTimer e)
    (basketPosition e) (items e) (animationId e) (itemSpawnTimer e)
    (onScoreChange e) (onGameEnd e) (onGameStateUpdate e)
    v (nextTimer e) (frames e) (nextFrame e) (nextOid e) (log e).

Definition set_nextTimer (v : nat) (e : GameEngine) : GameEngine :=
  mkEngine (score e) (level e) (timeLimit e) (isGameActive e) (gameTimer e)
    (basketPosition e) (items e) (animationId e) (itemSpawnTimer e)
    (onScoreChange e) (onGameEnd e) (onGameStateUpdate e)
    (timers e) v (frames e) (nextFrame e) (nextOid e) (log e).

Definition set_frames (v : gset nat) (e : GameEngine) : GameEngine :=
  mkEngine (score e) (level e) (timeLimit e) (isGameActive e) (gameTimer e)
    (basketPosition e) (items e) (animationId e) (itemSpawnTimer e)
    (onScoreChange e) (onGameEnd e) (onGameStateUpdate e)
    (timers e) (nextTimer e) v (nextFrame e) (nextOid e) (log e).

Definition set_nextFrame (v : nat) (e : GameEngine) : GameEngine :=
  mkEngine (score e) (level e) (timeLimit e) (isGameActive e) (gameTimer e)
    (basketPosition e) (items e) (animationId e) (itemSpawnTimer e)
    (onScoreChange e) (onGameEnd e) (onGameStateUpdate e)
    (timers e) (nextTimer e) (frames e) v (nextOid e) (log e).

Definition set_nextOid (v : nat) (e : GameEngine) : GameEngine :=
  mkEngine (score e) (level e) (timeLimit e) (isGameActive e) (gameTimer e)
    (basketPosition e) (items e) (animationId e) (itemSpawnTimer e)
    (onScoreChange e) (onGameEnd e) (onGameStateUpdate e)
    (timers e) (nextTimer e) (frames e) (nextFrame e) v (log e).

Definition set_log (v : list Event) (e : GameEngine) : GameEngine :=
  mkEngine (score e) (level e) (timeLimit e) (isGameActive e) (gameTimer e)
    (basketPosition e) (items e) (animationId e) (itemSpawnTimer e)
    (onScoreChange e) (onGameEnd e) (onGameStateUpdate e)
    (timers e) (nextTimer e) (frames e) (nextFrame e) (nextOid e) v.

(** ** The host *)

Definition emit (ev : Event) (e : GameEngine) : GameEngine :=
  set_log (log e ++ [ev]) e.

(** [setInterval] and [setTimeout]: register the timer under a fresh handle
    and return the handle. *)
Definition addTimer (t : Timer) (e : GameEngine) : nat * GameEngine :=
  (nextTimer e,
   set_nextTimer (S (nextTimer e)) (set_timers (<[nextTimer e := t]> (timers e)) e)).

(** [clearInterval] and [clearTimeout]. *)
Definition clearHandle (h : nat) (e : GameEngine) : GameEngine :=
  set_timers (delete h (timers e)) e.

Definition requestAnimationFrame (e : GameEngine) : nat * GameEngine :=
  (nextFrame e,
   set_nextFrame (S (nextFrame e)) (set_frames ({[nextFrame e]} ∪ frames e) e)).

Definition cancelAnimationFrame (h : nat) (e : GameEngine) : GameEngine :=
  set_frames (frames e ∖ {[h]}) e.

(** [x < y] and [x > y] on rationals, as booleans. *)
Definition Qlt_bool (x y : Q) : bool := negb (Qle_bool y x).

(** ** Methods of [GameEngine] *)

Definition snapshot (e : GameEngine) : Snapshot.t :=
  Snapshot.mk (basketPosition e) (items e) (timeLimit e) (score e) (level e).

Definition notifyStateUpdate (e : GameEngine) : GameEngine :=
  if onGameStateUpdate e then emit (StateUpdate (snapshot e)) e else e.

(** [if (handle)]: [null] and 0 are falsy. *)
Definition truthyHandle (handle : option nat) : option nat :=
  match handle with
  | Some (S h) => Some (S h)
  | _ => None
  end.

Definition clearTimer (e : GameEngine) : GameEngine :=
  match truthyHandle (gameTimer e) with
  | Some h => set_gameTimer None (clearHandle h e)
  | None => e
  end.

Definition stop (e : GameEngine) : GameEngine :=
  let e := set_isGameActive false e in
  let e := clearTimer e in
  let e := match truthyHandle (animationId e) with
           | Some h => set_animationId None (cancelAnimationFrame h e)
           | None => e
           end in
  let e := match truthyHandle (itemSpawnTimer e) with
           | Some h => set_itemSpawnTimer None (clearHandle h e)
           | None => e
           end in
  if onGameEnd e then emit (GameEnd (score e) (level e)) e else e.

(** The arrow function [startTimer] hands to [setInterval]. *)
Definition countdown (e : GameEngine) : GameEngine :=
  let e := set_timeLimit (timeLimit e - 1) e in
  let e := notifyStateUpdate e in
  if timeLimit e <=? 0 then stop e else e.

Definition startTimer (e : GameEngine) : GameEngine :=
  let '(h, e) := addTimer (Interval 1000) e in
  set_gameTimer (Some h) e.

(** [this.itemTypes[0]]. *)
Definition itemTypes_0 : ItemType.t :=
  nth 0 itemTypes (ItemType.mk "" 0 0 0).

(** The [for ... of] loop of [spawnItem], with its [break]. *)
Fixpoint selectType (rand cumulativeProb : Q) (types : list ItemType.t)
    (selectedType : ItemType.t) : ItemType.t :=
  match types with
  | [] => selectedType
  | item :: rest =>
      let cumulativeProb := (cumulativeProb + ItemType.probability item)%Q in
      if Qle_bool rand cumulativeProb then item
      else selectType rand cumulativeProb rest selectedType
  end.

(** [selectedType] of [spawnItem] after the two level corrections. *)
Definition spawnType (rand : Q) (level : Z) : ItemType.t :=
  let selectedType := selectType rand 0 itemTypes itemTypes_0 in
  let selectedType :=
    if (level <? 2) && (ItemType.type selectedType =? "orange")%string
    then itemTypes_0 else selectedType in
  let selectedType :=
    if (level <? 3) && (ItemType.type selectedType =? "bomb")%string
    then itemTypes_0 else selectedType in
  selectedType.

Definition spawnItem (d : Draw) (e : GameEngine) : GameEngine :=
  let laneIndex := Qfloor (u_lane d * 3) in
  let rand := u_type d in
  let selectedType := spawnType rand (level e) in
  let newItem :=
    Item.mk (nextOid e) (u_id d)
      (ItemType.type selectedType)
      (ItemType.score selectedType)
      (ItemType.speed selectedType + inject_Z (level e) * 0.5)
      laneIndex
      (-50) in
  set_items (items e ++ [newItem]) (set_nextOid (S (nextOid e)) e).

Definition spawnLoop (d : Draw) (e : GameEngine) : GameEngine :=
  if negb (isGameActive e) then e
  else
    let spawnRate := Z.max 800 (3000 - level e * 400) in
    let e := spawnItem d e in
    let '(h, e) := addTimer (Timeout spawnRate) e in
    set_itemSpawnTimer (Some h) e.

(** The loop shared by [updateItems] and [checkCollisions]:
    [for (let i = n - 1; i >= 0; i--) { const item = this.items[i]; ... }].
    Reading [this.items[i]] outside the array would give [undefined] and the
    body would throw; [defined_reads] below says that this does not happen,
    and the branch for it leaves the loop. *)
Fixpoint forDown (body : nat -> Item.t -> GameEngine -> GameEngine)
    (n : nat) (e : GameEngine) : GameEngine :=
  match n with
  | O => e
  | S i =>
      match items e !! i with
      | None => e
      | Some item => forDown body i (body i item e)
      end
  end.

(** Every [this.items[i]] read by the loop is inside the array. *)
Inductive defined_reads (body : nat -> Item.t -> GameEngine -> GameEngine) :
    nat -> GameEngine -> Prop :=
| defined_reads_O e : defined_reads body 0 e
| defined_reads_S i e item :
    items e !! i = Some item ->
    defined_reads body i (body i item e) ->
    defined_reads body (S i) e.

(** The body of the loop of [updateItems]. *)
Definition updateItems_body (i : nat) (item : Item.t) (e : GameEngine) : GameEngine :=
  let item := Item.set_y (Item.y item + Item.speed item) item in
  let e := set_items (<[i := item]> (items e)) e in
  if Qlt_bool 600 (Item.y item)
  then set_items (delete i (items e)) e else e.

Definition updateItems (e : GameEngine) : GameEngine :=
  forDown updateItems_body (length (items e)) e.

Definition addScore (points : Z) (e : GameEngine) : GameEngine :=
  let e := set_score (score e + points) e in
  let newLevel := score e / 500 + 1 in
  let e := if newLevel >? level e then set_level newLevel e else e in
  if onScoreChange e then emit (ScoreChange (score e) (level e)) e else e.

Definition bombAlert : string := "폭탄을 받았습니다! 게임 오버!".

Definition handleItemCollection (item : Item.t) (e : GameEngine) : GameEngine :=
  let e := emit (Collect item) e in
  if (Item.type item =? "bomb")%string then
    let e := stop e in
    emit (Alert bombAlert) e
  else addScore (Item.score item) e.

Definition catcherY : Q := 500.
Definition hitRange : Q := 30.

(** The body of the loop of [checkCollisions]. *)
Definition checkCollisions_body (i : nat) (item : Item.t) (e : GameEngine) : GameEngine :=
  if Qlt_bool (Qabs (Item.y item - catcherY)) hitRange then
    if Item.lane item =? basketPosition e then
      let e := handleItemCollection item e in
      set_items (delete i (items e)) e
    else e
  else e.

Definition checkCollisions (e : GameEngine) : GameEngine :=
  forDown checkCollisions_body (length (items e)) e.

Definition gameLoop (e : GameEngine) : GameEngine :=
  if negb (isGameActive e) then e
  else
    let e := updateItems e in
    let e := checkCollisions e in
    let e := notifyStateUpdate e in
    let '(h, e) := requestAnimationFrame e in
    set_animationId (Some h) e.

(** [config.timeLimit || 60]. *)
Definition timeLimit_or_60 (v : JsValue) : Z :=
  match v with
  | Number n => if truthy v then n else 60
  | _ => 60
  end.

Definition start (config : Config.t) (d : Draw) (e : GameEngine) : GameEngine :=
  let e := set_isGameActive true e in
  let e := set_score 0 e in
  let e := set_level 1 e in
  let e := set_timeLimit (timeLimit_or_60 (Config.timeLimit config)) e in
  let e := set_basketPosition 1 e in
  let e := set_items [] e in
  let e := if timeLimit e >? 0 then startTimer e else e in
  let e := spawnLoop d e in
  let e := gameLoop e in
  notifyStateUpdate e.

Definition onPoseDetected (detectedPose : string) (e : GameEngine) : GameEngine :=
  if negb (isGameActive e) then e
  else if (detectedPose =? "Left")%string then set_basketPosition 0 e
  else if (detectedPose =? "Center")%string then set_basketPosition 1 e
  else if (detectedPose =? "Right")%string then set_basketPosition 2 e
  else e.

(** ** The engine in its host

    What can happen to an engine: a call of a public method, or the host
    running one of the callbacks the engine registered. *)
Inductive Call :=
| Start (config : Config.t) (d : Draw)
| Stop
| OnPoseDetected (detectedPose : string)
| SetScoreChangeCallback (callback : bool)
| SetGameEndCallback (callback : bool)
| SetGameStateUpdateCallback (callback : bool)
| FireTimer (h : nat) (d : Draw)
| FireFrame (h : nat).

(** The host runs the callback of a live timer.  An interval stays live; a
    timeout is spent. *)
Definition fireTimer (h : nat) (d : Draw) (e : GameEngine) : GameEngine :=
  match timers e !! h with
  | Some (Interval _) => countdown e
  | Some (Timeout _) => spawnLoop d (clearHandle h e)
  | None => e
  end.

(** The host runs a requested animation frame. *)
Definition fireFrame (h : nat) (e : GameEngine) : GameEngine :=
  if decide (h ∈ frames e) then gameLoop (cancelAnimationFrame h e) else e.

Definition step (c : Call) (e : GameEngine) : GameEngine :=
  match c with
  | Start config d => start config d e
  | Stop => stop e
  | OnPoseDetected p => onPoseDetected p e
  | SetScoreChangeCallback cb => set_onScoreChange cb e
  | SetGameEndCallback cb => set_onGameEnd cb e
  | SetGameStateUpdateCallback cb => set_onGameStateUpdate cb e
  | FireTimer h d => fireTimer h d e
  | FireFrame h => fireFrame h e
  end.

Definition run (cs : list Call) (e : GameEngine) : GameEngine :=
  fold_left (fun e c => step c e) cs e.

Inductive reachable : GameEngine -> Prop :=
| reachable_new : reachable new_GameEngine
| reachable_step c e : reachable e -> reachable (step c e).

(** Is [c] a call of [start]? *)
Definition is_Start (c : Call) : bool :=
  match c with Start _ _ => true | _ => false end.

(** ** Derived notions used in the statements *)

(** The delay of the timeout that [spawnLoop] leaves behind, if any. *)
Definition scheduledSpawnDelay (e : GameEngine) : option Z :=
  match itemSpawnTimer e with
  | Some h => match timers e !! h with
              | Some (Timeout ms) => Some ms
              | _ => None
              end
  | None => None
  end.

(** Is the countdown of [startTimer] live? *)
Definition countdownRunning (e : GameEngine) : bool :=
  match gameTimer e with
  | Some h => match timers e !! h with
              | Some (Interval _) => true
              | _ => false
              end
  | None => false
  end.

(** A draw that [Math.random] can produce. *)
Definition validDraw (d : Draw) : Prop :=
  (0 <= u_lane d)%Q /\ (u_lane d < 1)%Q /\ (0 <= u_type d)%Q /\ (u_type d < 1)%Q.

(** One step of the position update, on one item. *)
Definition advance (item : Item.t) : Item.t :=
  Item.set_y (Item.y item + Item.speed item) item.

Definition escaped (item : Item.t) : bool := Qlt_bool 600 (Item.y item).

(** The two nested tests of [checkCollisions], for a basket in lane [basket]. *)
Definition collides (basket : Z) (item : Item.t) : bool :=
  Qlt_bool (Qabs (Item.y item - catcherY)) hitRange
  && (Item.lane item =? basket).

(** What [checkCollisions] does to the engine apart from removing items: it
    hands the colliding items to [handleItemCollection], last one first. *)
Definition collectAll (basket : Z) (l : list Item.t) (e : GameEngine) : GameEngine :=
  fold_right
    (fun item e => if collides basket item then handleItemCollection item e else e)
    e l.

(** The items handed to [handleItemCollection] so far, oldest first. *)
Definition collected (l : list Event) : list Item.t :=
  omap (fun ev => match ev with Collect it => Some it | _ => None end) l.

(** How often the object [o] has been handed to [handleItemCollection]. *)
Definition collections (o : nat) (l : list Event) : nat :=
  length (filter (fun it => Item.oid it = o) (collected l)).

(** The category of the item a call of [spawnItem] appends. *)
Definition spawnedType (d : Draw) (e : GameEngine) : option string :=
  Item.type <$> last (items (spawnItem d e)).

(** The part of the state the game rules speak about. *)
Definition game (e : GameEngine) : Z * Z * list Item.t * nat * list Item.t :=
  (score e, level e, items e, nextOid e, collected (log e)).

(** The objects that are active or were collected. *)
Definition oids (e : GameEngine) : list nat :=
  Item.oid <$> (items e ++ collected (log e)).

(** What holds of every state the engine can be in: the score is not
    negative and determines the level, no item carries negative points, and
    the objects that are active or were collected are pairwise distinct and
    were all allocated by [spawnItem]. *)
Record Inv (e : GameEngine) : Prop := mkInv {
  inv_score : 0 <= score e;
  inv_level : level e = score e / 500 + 1;
  inv_points : Forall (fun it => 0 <= Item.score it) (items e);
  inv_nodup : NoDup (oids e);
  inv_oid : Forall (fun o => (o < nextOid e)%nat) (oids e)
}.

(** Draws for the middle lane: one that selects an apple at every level, and
    one that selects a bomb from level 3 on. *)
Definition appleDraw (n : Z) : Draw := mkDraw 0.5 0.5 (inject_Z n).
Definition bombDraw (n : Z) : Draw := mkDraw 0.5 0.95 (inject_Z n).

(** The host runs the [n] animation frames with handles [h], [h + 1], ... *)
Definition fireFrames (h n : nat) : list Call := List.map FireFrame (seq h n).

(** The spawn timeout with handle [i + 1] fires and spawns an apple; 95
    frames bring it down to the basket. *)
Definition appleRound (i : nat) : list Call :=
  FireTimer (S i) (appleDraw (Z.of_nat i)) :: fireFrames (95 * i) 95.

(** A run that ends with a bomb and an apple in the hit band of the basket's
    lane.  Ten apples are spawned and caught one after the other (score 1000,
    level 3); then an apple is spawned, eleven frames later a bomb, and 69
    frames later both are one tick above the hit band.  Timer handle 1 is the
    countdown, the spawn timeouts are 2, 3, ...; frame handles are 1, 2, ... *)
Definition bombScript : list Call :=
  [SetGameStateUpdateCallback true; SetScoreChangeCallback true;
   SetGameEndCallback true; Start (Config.mk (Number 60)) (appleDraw 0)]
  ++ fireFrames 1 94
  ++ concat (List.map appleRound (seq 1 9))
  ++ [FireTimer 11 (appleDraw 10)] ++ fireFrames 950 11
  ++ [FireTimer 12 (bombDraw 11)] ++ fireFrames 961 69.

(** The state in which [start] calls [gameLoop]: everything [start] does
    before that call. *)
Definition beforeFirstTick (config : Config.t) (d : Draw) (e : GameEngine) : GameEngine :=
  let e := set_isGameActive true e in
  let e := set_score 0 e in
  let e := set_level 1 e in
  let e := set_timeLimit (timeLimit_or_60 (Config.timeLimit config)) e in
  let e := set_basketPosition 1 e in
  let e := set_items [] e in
  let e := if timeLimit e >? 0 then startTimer e else e in
  spawnLoop d e.

(** The states in which [gameLoop] is entered: when the host runs a requested
    animation frame, and inside [start]. *)
Inductive atTick : GameEngine -> Prop :=
| atTick_frame e h : reachable e -> h ∈ frames e -> atTick (cancelAnimationFrame h e)
| atTick_start e config d : reachable e -> atTick (beforeFirstTick config d e).

(** The history of collections of [e'] continues that of [e]. *)
Definition extends (e e' : GameEngine) : Prop :=
  exists k, collected (log e') = collected (log e) ++ k.

(** A run that ends one tick before the first apple reaches the basket. *)
Definition catchScript : list Call :=
  Start (Config.mk (Number 60)) (appleDraw 0) :: fireFrames 1 93.

(** ** Further notions

    The rest of the engine's behaviour is stated with these. *)

Definition isBomb (item : Item.t) : bool := (Item.type item =? "bomb")%string.

(** The items a tick taken from [e] hands to [handleItemCollection], oldest
    first: moved, still in the play area, and at the basket. *)
Definition hitsOf (e : GameEngine) : list Item.t :=
  filter (fun it => collides (basketPosition e) it = true)
    (filter (fun it => escaped it = false) (advance <$> items e)).

(** The sum of a list of points. *)
Definition total (l : list Z) : Z := fold_right Z.add 0 l.

(** The last two statements of [gameLoop]. *)
Definition reschedule (e : GameEngine) : GameEngine :=
  let '(h, e) := requestAnimationFrame e in
  set_animationId (Some h) e.

(** What the engine has registered with the host, and whether it is active. *)
Definition hostOf (e : GameEngine) :
    bool * option nat * option nat * option nat * gmap nat Timer * nat * gset nat * nat :=
  (isGameActive e, gameTimer e, animationId e, itemSpawnTimer e,
   timers e, nextTimer e, frames e, nextFrame e).

(** The fields no collection touches. *)
Definition restOf (e : GameEngine) :
    Z * Z * list Item.t * nat * nat * nat * bool * bool * bool :=
  (timeLimit e, basketPosition e, items e, nextOid e, nextTimer e, nextFrame e,
   onScoreChange e, onGameEnd e, onGameStateUpdate e).

(** What a player or a renderer can observe of the engine. *)
Definition visible (e : GameEngine) :
    Z * Z * Z * bool * Z * list Item.t * list Event :=
  (score e, level e, timeLimit e, isGameActive e, basketPosition e,
   items e, log e).

(** The calls that are not under the caller's control once a game is over:
    the host running a callback, and a pose or key input. *)
Definition passive (c : Call) : bool :=
  match c with
  | FireTimer _ _ | FireFrame _ | OnPoseDetected _ => true
  | _ => false
  end.

(** The states reached when [start] is only ever called on an engine that is
    not active. *)
Inductive playable : GameEngine -> Prop :=
| playable_new : playable new_GameEngine
| playable_step c e :
    playable e ->
    (is_Start c = true -> isGameActive e = false) ->
    playable (step c e).

(** No interval of the host is live. *)
Definition noInterval (e : GameEngine) : Prop :=
  forall h ms, timers e !! h <> Some (Interval ms).

(** The handles the host has given out are positive and below its counters. *)
Record Handles (e : GameEngine) : Prop := mkHandles {
  handles_timers : forall h t, timers e !! h = Some t -> (0 < h < nextTimer e)%nat;
  handles_frames : forall h, h ∈ frames e -> (0 < h < nextFrame e)%nat;
  handles_next : (0 < nextTimer e)%nat /\ (0 < nextFrame e)%nat
}.

(** The timers of a game played with one [start] at a time: none when the
    engine is not active; when it is active, the pending run of [spawnLoop]
    and, with a positive remaining time, the countdown. *)
Record Loops (e : GameEngine) : Prop := mkLoops {
  loops_handles : Handles e;
  loops_inactive : isGameActive e = false -> timers e = ∅;
  loops_spawn :
    isGameActive e = true ->
    exists hs ms, itemSpawnTimer e = Some hs /\ timers e !! hs = Some (Timeout ms);
  loops_only :
    forall h t,
      timers e !! h = Some t ->
      match t with
      | Timeout _ => itemSpawnTimer e = Some h
      | Interval _ => gameTimer e = Some h /\ 0 < timeLimit e
      end
}.

(** A draw is valid in the two calls that consume one. *)
Definition validCall (c : Call) : Prop :=
  match c with
  | Start _ d | FireTimer _ d => validDraw d
  | _ => True
  end.

(** An item as [spawnItem] makes them and [updateItems] keeps them. *)
Record wellFormed (item : Item.t) : Prop := mkWellFormed {
  wf_row :
    exists row, row ∈ itemTypes
      /\ Item.type item = ItemType.type row
      /\ Item.score item = ItemType.score row;
  wf_speed : (5.5 <= Item.speed item)%Q;
  wf_y : (-50 <= Item.y item)%Q /\ (Item.y item <= 600)%Q
}.

(** *** The page script ([main.js])

    [String.prototype.toLowerCase] on the letters A to Z; every other
    character is left as it is, which is all the comparisons of the key
    handler can tell. *)
Definition lowerAscii (c : ascii) : ascii :=
  let n := nat_of_ascii c in
  if ((65 <=? n) && (n <=? 90))%nat then ascii_of_nat (n + 32) else c.

Fixpoint toLowerCase (s : string) : string :=
  match s with
  | String.EmptyString => String.EmptyString
  | String c rest => String (lowerAscii c) (toLowerCase rest)
  end.

(** The [keydown] listener registered by [init], applied to [event.key]. *)
Definition onKeydown (eventKey : string) (e : GameEngine) : GameEngine :=
  let key := toLowerCase eventKey in
  if (key =? "a")%string then onPoseDetected "Left" e
  else if (key =? "s")%string then onPoseDetected "Center" e
  else if (key =? "d")%string then onPoseDetected "Right" e
  else e.

Definition getItemEmoji (type : string) : string :=
  if (type =? "apple")%string then "🍎"
  else if (type =? "orange")%string then "🍊"
  else if (type =? "bomb")%string then "💣"
  else "❓".

(** An item lies in one of the three lanes of the board. *)
Definition inLane (item : Item.t) : Prop := 0 <= Item.lane item <= 2.

(** The shape of the visible state: a level from 1 on, the basket in one of
    the three lanes, a score counted in hundreds, and items that are
    [wellFormed]. *)
Record Shape (e : GameEngine) : Prop := mkShape {
  shape_level : 1 <= level e;
  shape_basket : 0 <= basketPosition e <= 2;
  shape_score : (100 | score e);
  shape_items : Forall wellFormed (items e)
}.

(** The items are listed in the order in which they were made. *)
Definition inSpawnOrder (e : GameEngine) : Prop :=
  StronglySorted lt (Item.oid <$> items e).

(** The three pose names [onPoseDetected] knows. *)
Definition knownPose (p : string) : bool :=
  (p =? "Left")%string || (p =? "Center")%string || (p =? "Right")%string.

(** A score and a level that fit: a score counted in hundreds, from 0 on,
    and the level that [addScore] computes from it. *)
Definition fits (s l : Z) : Prop := 0 <= s /\ (100 | s) /\ l = s / 500 + 1.

(** What a notification carries is a state the game can be in. *)
Definition eventOk (ev : Event) : Prop :=
  match ev with
  | StateUpdate s =>
      fits (Snapshot.score s) (Snapshot.level s)
      /\ 0 <= Snapshot.basketPosition s <= 2
      /\ Forall wellFormed (Snapshot.items s)
  | ScoreChange s l | GameEnd s l => fits s l
  | Alert _ | Collect _ => True
  end.

(** The state and everything emitted so far. *)
Record Told (e : GameEngine) : Prop := mkTold {
  told_fits : fits (score e) (level e);
  told_basket : 0 <= basketPosition e <= 2;
  told_items : Forall wellFormed (items e);
  told_log : Forall eventOk (log e)
}.

(** * Properties *)

Lemma Qlt_bool_iff (x y : Q) : Qlt_bool x y = true <-> (x < y)%Q.
Proof.
  unfold Qlt_bool. rewrite negb_true_iff.
  split.
  - intros H. apply Qnot_le_lt. intros Hle.
    apply Qle_bool_iff in Hle. congruence.
  - intros H. destruct (Qle_bool y x) eqn:E; [|reflexivity].
    apply Qle_bool_iff in E. exfalso. exact (Qlt_not_le _ _ H E).
Qed.

(** ** Spawn interval *)

Lemma spawnLoop_schedules d e :
  isGameActive e = true ->
  scheduledSpawnDelay (spawnLoop d e) = Some (Z.max 800 (3000 - level e * 400)).
Proof.
  intros Hact. unfold spawnLoop. rewrite Hact. cbn.
  unfold scheduledSpawnDelay. cbn.
  rewrite lookup_insert_eq. reflexivity.
Qed.

(** C7: while the engine is active, the timeout [spawnLoop] registers for its
    next run has delay [max(800, 3000 - level * 400)] ms; the registered
    delay never drops below 800 ms and does not increase with the level. *)
Theorem C7_spawn_delay :
  forall d e,
    isGameActive e = true ->
    scheduledSpawnDelay (spawnLoop d e) = Some (Z.max 800 (3000 - level e * 400))
    /\ (forall ms, scheduledSpawnDelay (spawnLoop d e) = Some ms -> 800 <= ms)
    /\ (forall d' e' ms ms',
          isGameActive e' = true ->
          level e <= level e' ->
          scheduledSpawnDelay (spawnLoop d e) = Some ms ->
          scheduledSpawnDelay (spawnLoop d' e') = Some ms' ->
          ms' <= ms).
Proof.
  intros d e Hact. split; [|split].
  - now apply spawnLoop_schedules.
  - intros ms. rewrite spawnLoop_schedules by assumption.
    intros [= <-]. lia.
  - intros d' e' ms ms' Hact' Hle.
    rewrite !spawnLoop_schedules by assumption.
    intros [= <-] [= <-]. lia.
Qed.

Lemma C7_spawn_delay_witness :
  let d := mkDraw 0.5 0.5 1 in
  let e1 := set_isGameActive true new_GameEngine in
  let e3 := set_level 3 e1 in
  scheduledSpawnDelay (spawnLoop d e1) = Some 2600
  /\ 800 <= 2600
  /\ 1800 <= 2600.
Proof.
  intros d e1 e3.
  destruct (C7_spawn_delay d e1 eq_refl) as (H1 & H2 & H3).
  split; [exact H1|]. split.
  - exact (H2 2600 H1).
  - refine (H3 d e3 2600 1800 eq_refl _ H1 eq_refl). cbn. lia.
Defined.

(** ** Basket control *)

(** C9: [onPoseDetected] does nothing on an inactive engine; on an active one
    the names Left, Center and Right set the basket lane to 0, 1 and 2 and
    leave every other field as it was. *)
Theorem C9_onPoseDetected :
  forall e,
    (isGameActive e = false -> forall p, onPoseDetected p e = e)
    /\ (isGameActive e = true ->
        onPoseDetected "Left" e = set_basketPosition 0 e
        /\ onPoseDetected "Center" e = set_basketPosition 1 e
        /\ onPoseDetected "Right" e = set_basketPosition 2 e).
Proof.
  intros e. split.
  - intros H p. unfold onPoseDetected. now rewrite H.
  - intros H. unfold onPoseDetected. rewrite H. cbn. auto.
Qed.

Lemma C9_onPoseDetected_witness :
  onPoseDetected "Left" new_GameEngine = new_GameEngine
  /\ basketPosition
       (onPoseDetected "Right" (set_isGameActive true new_GameEngine)) = 2.
Proof.
  split.
  - exact (proj1 (C9_onPoseDetected new_GameEngine) eq_refl "Left"%string).
  - rewrite (proj2 (proj2 (proj2 (C9_onPoseDetected
                (set_isGameActive true new_GameEngine)) eq_refl))).
    reflexivity.
Defined.

(** ** The two loops over [this.items] *)

Lemma insert_middle {A} (l1 l2 : list A) (x x' : A) :
  <[length l1 := x']> (l1 ++ x :: l2) = l1 ++ x' :: l2.
Proof.
  rewrite insert_app_r_alt by lia. now rewrite Nat.sub_diag.
Qed.

Lemma updateItems_body_middle l1 item l2 e :
  updateItems_body (length l1) item (set_items (l1 ++ item :: l2) e)
  = set_items (l1 ++ (if escaped (advance item) then [] else [advance item]) ++ l2) e.
Proof.
  unfold updateItems_body. fold (advance item). fold (escaped (advance item)).
  cbn [items set_items]. rewrite insert_middle.
  destruct (escaped (advance item)); [|reflexivity].
  cbn [items set_items]. now rewrite delete_middle.
Qed.

Lemma updateItems_from_app l1 l2 e :
  forDown updateItems_body (length l1) (set_items (l1 ++ l2) e)
  = set_items (filter (fun it => escaped it = false) (advance <$> l1) ++ l2) e.
Proof.
  revert l2. induction l1 as [|item l1 IH] using rev_ind; intros l2.
  - reflexivity.
  - rewrite last_length, <- app_assoc. cbn [forDown app].
    replace (items (set_items (l1 ++ item :: l2) e))
      with (l1 ++ item :: l2) by reflexivity.
    rewrite list_lookup_middle by reflexivity.
    rewrite updateItems_body_middle, IH.
    rewrite fmap_app, filter_app. cbn [fmap list_fmap].
    destruct (escaped (advance item)) eqn:Hesc.
    + rewrite filter_cons_False by congruence.
      now rewrite filter_nil, app_nil_r.
    + rewrite filter_cons_True by assumption.
      now rewrite filter_nil, <- app_assoc.
Qed.

Lemma updateItems_spec e :
  updateItems e
  = set_items (filter (fun it => escaped it = false) (advance <$> items e)) e.
Proof.
  unfold updateItems.
  replace e with (set_items (items e ++ []) e) at 2
    by (rewrite app_nil_r; now destruct e).
  rewrite updateItems_from_app. now rewrite app_nil_r.
Qed.

Lemma updateItems_defined_reads_app l1 l2 e :
  defined_reads updateItems_body (length l1) (set_items (l1 ++ l2) e).
Proof.
  revert l2. induction l1 as [|item l1 IH] using rev_ind; intros l2.
  - constructor.
  - rewrite last_length, <- app_assoc. cbn [app].
    apply (defined_reads_S _ _ _ item).
    + cbn [items set_items]. now apply list_lookup_middle.
    + rewrite updateItems_body_middle. apply IH.
Qed.

Lemma updateItems_defined_reads e :
  defined_reads updateItems_body (length (items e)) e.
Proof.
  replace e with (set_items (items e ++ []) e) at 2
    by (rewrite app_nil_r; now destruct e).
  apply updateItems_defined_reads_app.
Qed.

Ltac unfold_methods :=
  unfold handleItemCollection, addScore, stop, clearTimer, notifyStateUpdate.

Ltac eng :=
  cbn [score level timeLimit isGameActive gameTimer basketPosition items
       animationId itemSpawnTimer onScoreChange onGameEnd onGameStateUpdate
       timers nextTimer frames nextFrame nextOid log
       set_score set_level set_timeLimit set_isGameActive set_gameTimer
       set_basketPosition set_items set_animationId set_itemSpawnTimer
       set_onScoreChange set_onGameEnd set_onGameStateUpdate set_timers
       set_nextTimer set_frames set_nextFrame set_nextOid set_log
       emit addTimer clearHandle requestAnimationFrame cancelAnimationFrame
       negb fst snd] in *.

(** Case analysis on the tests of the methods, innermost first. *)
Ltac case_step :=
  match goal with
  | |- context [truthyHandle (?f ?e)] =>
      is_var e; destruct (truthyHandle (f e)) eqn:?
  | |- context [if ?f ?e then _ else _] => is_var e; destruct (f e) eqn:?
  | |- context [if ?c then _ else _] => destruct c eqn:?
  end.

Ltac by_cases :=
  unfold_methods; eng; repeat (case_step; eng); try congruence.

Lemma handleItemCollection_set_items item l e :
  handleItemCollection item (set_items l e)
  = set_items l (handleItemCollection item e).
Proof. by_cases; reflexivity. Qed.

Lemma handleItemCollection_basketPosition item e :
  basketPosition (handleItemCollection item e) = basketPosition e.
Proof. by_cases; reflexivity. Qed.

Lemma handleItemCollection_items item e :
  items (handleItemCollection item e) = items e.
Proof. by_cases; reflexivity. Qed.

Lemma collectAll_cons b item l e :
  collectAll b (item :: l) e
  = if collides b item then handleItemCollection item (collectAll b l e)
    else collectAll b l e.
Proof. reflexivity. Qed.

Lemma collectAll_set_items b l l' e :
  collectAll b l (set_items l' e) = set_items l' (collectAll b l e).
Proof.
  induction l as [|item l IH]; [reflexivity|].
  rewrite !collectAll_cons, IH. destruct (collides b item); [|reflexivity].
  apply handleItemCollection_set_items.
Qed.

Lemma collectAll_basketPosition b l e :
  basketPosition (collectAll b l e) = basketPosition e.
Proof.
  induction l as [|item l IH]; [reflexivity|].
  rewrite collectAll_cons. destruct (collides b item); [|assumption].
  now rewrite handleItemCollection_basketPosition.
Qed.

Lemma collectAll_app b l1 l2 e :
  collectAll b (l1 ++ l2) e = collectAll b l1 (collectAll b l2 e).
Proof. unfold collectAll. apply fold_right_app. Qed.

Lemma checkCollisions_body_middle l1 item l2 e :
  checkCollisions_body (length l1) item (set_items (l1 ++ item :: l2) e)
  = if collides (basketPosition e) item
    then set_items (l1 ++ l2) (handleItemCollection item e)
    else set_items (l1 ++ item :: l2) e.
Proof.
  unfold checkCollisions_body, collides.
  change (basketPosition (set_items _ e)) with (basketPosition e).
  destruct (Qlt_bool (Qabs (Item.y item - catcherY)) hitRange); [|reflexivity].
  destruct (Item.lane item =? basketPosition e); [|reflexivity].
  cbn [andb]. rewrite handleItemCollection_set_items. cbn [items set_items].
  now rewrite delete_middle.
Qed.

Lemma checkCollisions_from_app l1 l2 e :
  forDown checkCollisions_body (length l1) (set_items (l1 ++ l2) e)
  = set_items
      (filter (fun it => collides (basketPosition e) it = false) l1 ++ l2)
      (collectAll (basketPosition e) l1 e).
Proof.
  revert l2 e. induction l1 as [|item l1 IH] using rev_ind; intros l2 e.
  - reflexivity.
  - rewrite last_length, <- app_assoc. cbn [forDown app].
    replace (items (set_items (l1 ++ item :: l2) e))
      with (l1 ++ item :: l2) by reflexivity.
    rewrite list_lookup_middle by reflexivity.
    rewrite checkCollisions_body_middle.
    rewrite filter_app, collectAll_app.
    rewrite (collectAll_cons _ item []).
    change (collectAll (basketPosition e) [] e) with e.
    destruct (collides (basketPosition e) item) eqn:Hc.
    + rewrite IH, handleItemCollection_basketPosition.
      rewrite filter_cons_False by congruence.
      now rewrite filter_nil, app_nil_r.
    + rewrite IH. rewrite filter_cons_True by assumption.
      now rewrite filter_nil, <- app_assoc.
Qed.

Lemma checkCollisions_spec e :
  checkCollisions e
  = set_items
      (filter (fun it => collides (basketPosition e) it = false) (items e))
      (collectAll (basketPosition e) (items e) e).
Proof.
  unfold checkCollisions.
  replace e with (set_items (items e ++ []) e) at 2
    by (rewrite app_nil_r; now destruct e).
  rewrite checkCollisions_from_app. now rewrite app_nil_r.
Qed.

Lemma checkCollisions_defined_reads_app l1 l2 e :
  defined_reads checkCollisions_body (length l1) (set_items (l1 ++ l2) e).
Proof.
  revert l2 e. induction l1 as [|item l1 IH] using rev_ind; intros l2 e.
  - constructor.
  - rewrite last_length, <- app_assoc. cbn [app].
    apply (defined_reads_S _ _ _ item).
    + cbn [items set_items]. now apply list_lookup_middle.
    + rewrite checkCollisions_body_middle.
      destruct (collides (basketPosition e) item); apply IH.
Qed.

Lemma checkCollisions_defined_reads e :
  defined_reads checkCollisions_body (length (items e)) e.
Proof.
  replace e with (set_items (items e ++ []) e) at 2
    by (rewrite app_nil_r; now destruct e).
  apply checkCollisions_defined_reads_app.
Qed.

(** ** Items leaving the play area *)

Lemma escaped_iff item : escaped item = true <-> (600 < Item.y item)%Q.
Proof. apply Qlt_bool_iff. Qed.

(** ** Collecting a bomb *)

(** C3: handing a bomb to [handleItemCollection] leaves the engine inactive,
    does not touch score or level, and emits, after the entry mark, the
    game-end notification (when a callback is registered) carrying the score
    and level of that moment, then the alert, and no score notification. *)
Theorem C3_bomb_collection :
  forall item e,
    Item.type item = "bomb"%string ->
    let e' := handleItemCollection item e in
    isGameActive e' = false
    /\ score e' = score e
    /\ level e' = level e
    /\ log e' = log e ++ [Collect item]
                 ++ (if onGameEnd e then [GameEnd (score e) (level e)] else [])
                 ++ [Alert bombAlert].
Proof.
  intros item e Hbomb e'. subst e'. unfold handleItemCollection.
  rewrite Hbomb. cbn [String.eqb Ascii.eqb Bool.eqb].
  unfold stop, clearTimer. eng.
  destruct (truthyHandle (gameTimer e)); eng;
    destruct (truthyHandle (animationId e)); eng;
    destruct (truthyHandle (itemSpawnTimer e)); eng;
    destruct (onGameEnd e); eng;
    rewrite <- ?app_assoc; auto.
Qed.

Lemma C3_bomb_collection_witness :
  let bomb := Item.mk 7 1 "bomb" 0 7.5 1 497.5 in
  let e := set_onGameEnd true
             (set_isGameActive true (set_level 3 (set_score 1000 new_GameEngine))) in
  isGameActive (handleItemCollection bomb e) = false
  /\ log (handleItemCollection bomb e)
     = [Collect bomb; GameEnd 1000 3; Alert bombAlert].
Proof.
  intros bomb e.
  destruct (C3_bomb_collection bomb e eq_refl) as (Hact & _ & _ & Hlog).
  split; [exact Hact | exact Hlog].
Defined.

(** ** Level gating of the spawned category *)

Lemma selectType_in_table rand :
  selectType rand 0 itemTypes itemTypes_0 ∈ itemTypes.
Proof.
  unfold itemTypes at 1. cbn [selectType].
  repeat (match goal with
          | |- context [Qle_bool ?x ?y] => destruct (Qle_bool x y)
          end);
    unfold itemTypes, itemTypes_0; cbn [nth]; set_solver.
Qed.

Lemma spawnItem_items d e :
  items (spawnItem d e)
  = items e ++
    [Item.mk (nextOid e) (u_id d)
       (ItemType.type (spawnType (u_type d) (level e)))
       (ItemType.score (spawnType (u_type d) (level e)))
       (ItemType.speed (spawnType (u_type d) (level e)) + inject_Z (level e) * 0.5)
       (Qfloor (u_lane d * 3)) (-50)].
Proof. reflexivity. Qed.

Lemma spawnType_gated rand lvl :
  (lvl < 2 -> spawnType rand lvl = itemTypes_0)
  /\ (lvl < 3 -> ItemType.type (spawnType rand lvl) <> "bomb"%string).
Proof.
  unfold spawnType.
  generalize (selectType_in_table rand).
  generalize (selectType rand 0 itemTypes itemTypes_0). intros t Hin.
  unfold itemTypes in Hin.
  repeat (apply elem_of_cons in Hin as [-> | Hin]);
    try (now apply elem_of_nil in Hin);
    destruct (Z.ltb_spec lvl 2), (Z.ltb_spec lvl 3);
    cbn; split; intros; try lia; try reflexivity; try discriminate.
Qed.

Lemma spawnedType_eq d e :
  spawnedType d e = Some (ItemType.type (spawnType (u_type d) (level e))).
Proof.
  unfold spawnedType. rewrite spawnItem_items, last_snoc. reflexivity.
Qed.

(** C5: for every draw, an item spawned below level 2 is an apple and an item
    spawned below level 3 is not a bomb; at level 2 some draw spawns an
    orange, and from level 3 on each of apple, orange and bomb is spawned by
    some draw. *)
Theorem C5_level_gating :
  forall e,
    (level e < 2 -> forall d, spawnedType d e = Some "apple"%string)
    /\ (2 <= level e < 3 ->
        (forall d, spawnedType d e <> Some "bomb"%string)
        /\ (exists d, validDraw d /\ spawnedType d e = Some "orange"%string))
    /\ (3 <= level e ->
        (exists d, validDraw d /\ spawnedType d e = Some "apple"%string)
        /\ (exists d, validDraw d /\ spawnedType d e = Some "orange"%string)
        /\ (exists d, validDraw d /\ spawnedType d e = Some "bomb"%string)).
Proof.
  intros e.
  assert (Hvalid : forall u, (0 <= u)%Q -> (u < 1)%Q -> validDraw (mkDraw 0.5 u 0)).
  { intros u H0 H1. repeat split; cbn; try assumption; reflexivity || discriminate. }
  assert (Hdraw : forall u t,
             ItemType.type (spawnType u (level e)) = t ->
             (0 <= u)%Q -> (u < 1)%Q ->
             exists d, validDraw d /\ spawnedType d e = Some t).
  { intros u t Ht H0 H1. exists (mkDraw 0.5 u 0). split; [now apply Hvalid|].
    rewrite spawnedType_eq. cbn. now rewrite Ht. }
  split; [|split].
  - intros Hlvl d. rewrite spawnedType_eq.
    now rewrite (proj1 (spawnType_gated (u_type d) (level e)) Hlvl).
  - intros [Hge Hlt]. split.
    + intros d. rewrite spawnedType_eq. intros [= Hb].
      exact (proj2 (spawnType_gated (u_type d) (level e)) Hlt Hb).
    + apply (Hdraw 0.7%Q); [|discriminate|reflexivity].
      unfold spawnType. cbn.
      destruct (Z.ltb_spec (level e) 2), (Z.ltb_spec (level e) 3);
        try lia; reflexivity.
  - intros Hge. repeat split.
    + apply (Hdraw 0.5%Q); [|discriminate|reflexivity].
      unfold spawnType. cbn.
      destruct (Z.ltb_spec (level e) 2), (Z.ltb_spec (level e) 3);
        try lia; reflexivity.
    + apply (Hdraw 0.7%Q); [|discriminate|reflexivity].
      unfold spawnType. cbn.
      destruct (Z.ltb_spec (level e) 2), (Z.ltb_spec (level e) 3);
        try lia; reflexivity.
    + apply (Hdraw 0.95%Q); [|discriminate|reflexivity].
      unfold spawnType. cbn.
      destruct (Z.ltb_spec (level e) 2), (Z.ltb_spec (level e) 3);
        try lia; reflexivity.
Qed.

Lemma C5_level_gating_witness :
  spawnedType (mkDraw 0.5 0.95 0) new_GameEngine = Some "apple"%string
  /\ spawnedType (mkDraw 0.5 0.95 0) (set_level 2 new_GameEngine)
     <> Some "bomb"%string
  /\ exists d, validDraw d
       /\ spawnedType d (set_level 3 new_GameEngine) = Some "bomb"%string.
Proof.
  split; [|split].
  - apply (proj1 (C5_level_gating new_GameEngine)). reflexivity.
  - apply (proj1 (proj2 (C5_level_gating (set_level 2 new_GameEngine)))).
    cbn. lia.
  - apply (proj2 (proj2 (C5_level_gating (set_level 3 new_GameEngine)))).
    cbn. lia.
Defined.

(** ** Starting a game *)

(** The item spawned by [start] (level 1, hence an apple at y = -50) neither
    leaves the play area nor reaches the basket in the tick [start] runs. *)
Lemma first_item_untouched b item :
  Item.y item = (-50)%Q ->
  Item.speed item = (ItemType.speed itemTypes_0 + inject_Z 1 * 0.5)%Q ->
  escaped (advance item) = false /\ collides b (advance item) = false.
Proof.
  intros Hy Hs. unfold escaped, collides, advance. cbn [Item.y Item.set_y].
  rewrite Hy, Hs. split; reflexivity.
Qed.

Lemma start_timer config d e :
  let e' := start config d e in
  timeLimit e' = timeLimit_or_60 (Config.timeLimit config)
  /\ isGameActive e' = true
  /\ if timeLimit_or_60 (Config.timeLimit config) >? 0
     then gameTimer e' = Some (nextTimer e)
          /\ timers e' !! nextTimer e = Some (Interval 1000)
     else gameTimer e' = gameTimer e
          /\ timers e' = <[nextTimer e := Timeout 2600]> (timers e).
Proof.
  unfold start. eng.
  destruct (timeLimit_or_60 (Config.timeLimit config) >? 0);
    unfold startTimer; eng; unfold spawnLoop; eng; unfold spawnItem; eng;
    rewrite (proj1 (spawnType_gated (u_type d) 1) ltac:(lia));
    unfold gameLoop; eng; rewrite updateItems_spec; eng;
    cbn [fmap list_fmap app];
    match goal with
    | |- context [advance ?it] =>
        destruct (first_item_untouched 1 it eq_refl eq_refl) as [He Hc];
        set (item := it) in *
    end;
    rewrite filter_cons_True by exact He; rewrite filter_nil;
    rewrite checkCollisions_spec; eng;
    rewrite filter_cons_True by exact Hc; rewrite filter_nil;
    rewrite collectAll_cons, Hc; cbn [collectAll fold_right];
    unfold notifyStateUpdate; eng;
    repeat (case_match; eng);
    repeat split;
    try reflexivity;
    try (rewrite lookup_insert_ne by lia; apply lookup_insert_eq).
Qed.

(** C10: when [config.timeLimit] is absent or falsy, [start] sets the
    remaining time to 60 and starts the countdown: [gameTimer] holds the
    handle drawn by this call and that handle is a live 1000 ms interval. *)
Theorem C10_default_time_limit :
  forall config d e,
    truthy (Config.timeLimit config) = false ->
    let e' := start config d e in
    timeLimit e' = 60
    /\ gameTimer e' = Some (nextTimer e)
    /\ timers e' !! nextTimer e = Some (Interval 1000)
    /\ countdownRunning e' = true.
Proof.
  intros config d e Hfalsy e'.
  assert (H60 : timeLimit_or_60 (Config.timeLimit config) = 60).
  { unfold timeLimit_or_60. destruct (Config.timeLimit config); try reflexivity.
    now rewrite Hfalsy. }
  destruct (start_timer config d e) as (Htl & _ & Htimer).
  rewrite H60 in Htl, Htimer. cbn in Htimer. destruct Htimer as [Hg Ht].
  subst e'. unfold countdownRunning. rewrite Hg, Ht. auto.
Qed.

Lemma C10_default_time_limit_witness :
  timeLimit (start (Config.mk Undefined) (mkDraw 0.5 0.5 1) new_GameEngine) = 60
  /\ countdownRunning
       (start (Config.mk (Number 0)) (mkDraw 0.5 0.5 1) new_GameEngine) = true.
Proof.
  split.
  - exact (proj1 (C10_default_time_limit (Config.mk Undefined)
                    (mkDraw 0.5 0.5 1) new_GameEngine eq_refl)).
  - exact (proj2 (proj2 (proj2 (C10_default_time_limit (Config.mk (Number 0))
                    (mkDraw 0.5 0.5 1) new_GameEngine eq_refl)))).
Defined.

(** C2: [start] with [timeLimit: 0].  The [||] of [start] replaces the 0 by
    60 before the test [this.timeLimit > 0], so the remaining time is 60, the
    countdown is started, and sixty runs of the countdown end the game. *)
Theorem C2_zero_time_limit_counts_down :
  (forall d e,
      let e' := start (Config.mk (Number 0)) d e in
      timeLimit e' = 60 /\ isGameActive e' = true
      /\ gameTimer e' = Some (nextTimer e)
      /\ timers e' !! nextTimer e = Some (Interval 1000))
  /\ (let e' := start (Config.mk (Number 0)) (appleDraw 0) new_GameEngine in
      let e'' := run (repeat (FireTimer 1 (appleDraw 1)) 60) e' in
      timers e' !! 1%nat = Some (Interval 1000)
      /\ isGameActive e'' = false /\ timeLimit e'' = 0).
Proof.
  split.
  - intros d e e'.
    destruct (start_timer (Config.mk (Number 0)) d e) as (Htl & Hact & Htimer).
    cbn in Htl, Htimer. destruct Htimer. auto.
  - vm_compute. auto.
Qed.

(** ** Stopping in the middle of a tick *)

(** C1: the tick after [bombScript].  The bomb (last in [this.items]) is
    handled first and [stop] runs: the game-end notification carries score
    1000.  The same call of [gameLoop] then goes on: it removes the bomb,
    collects the apple (score 1100, a score notification), emits a state
    snapshot and requests another animation frame. *)
Theorem C1_bomb_mid_tick :
  let e := run bombScript new_GameEngine in
  let e' := step (FireFrame 1030) e in
  (isGameActive e = true /\ score e = 1000 /\ level e = 3
   /\ (Item.type <$> items e) = ["apple"; "bomb"]%string)
  /\ (exists bomb apple,
       drop (length (log e)) (log e')
       = [Collect bomb; GameEnd 1000 3; Alert bombAlert;
          Collect apple; ScoreChange 1100 3; StateUpdate (snapshot e')])
  /\ isGameActive e' = false /\ score e' = 1100 /\ items e' = []
  /\ animationId e' = Some 1031%nat /\ elements (frames e') = [1031%nat].
Proof.
  intros e e'. split; [|split].
  - vm_compute. auto.
  - eexists. eexists. vm_compute. reflexivity.
  - vm_compute. auto.
Qed.

(** ** The game state under each method *)

Lemma collected_snoc l ev :
  collected (l ++ [ev])
  = collected l ++ match ev with Collect it => [it] | _ => [] end.
Proof.
  unfold collected. rewrite omap_app. now destruct ev.
Qed.

Ltac game_same :=
  unfold game; by_cases; rewrite ?collected_snoc, ?app_nil_r; reflexivity.

Lemma game_notifyStateUpdate e : game (notifyStateUpdate e) = game e.
Proof. game_same. Qed.

Lemma game_stop e : game (stop e) = game e.
Proof. game_same. Qed.

Lemma game_countdown e : game (countdown e) = game e.
Proof.
  unfold countdown. eng.
  destruct (timeLimit (notifyStateUpdate (set_timeLimit (timeLimit e - 1) e)) <=? 0);
    rewrite ?game_stop, game_notifyStateUpdate; reflexivity.
Qed.

Lemma game_onPoseDetected p e : game (onPoseDetected p e) = game e.
Proof. unfold onPoseDetected. repeat case_match; reflexivity. Qed.

Lemma game_startTimer e : game (startTimer e) = game e.
Proof. reflexivity. Qed.

Lemma game_requestAnimationFrame e :
  game (let '(h, e0) := requestAnimationFrame e in set_animationId (Some h) e0)
  = game e.
Proof. reflexivity. Qed.

Lemma game_gameLoop e :
  isGameActive e = true ->
  game (gameLoop e) = game (checkCollisions (updateItems e)).
Proof.
  intros Hact. unfold gameLoop. rewrite Hact. cbn [negb].
  now rewrite game_requestAnimationFrame, game_notifyStateUpdate.
Qed.

Lemma game_spawnLoop d e :
  isGameActive e = true ->
  game (spawnLoop d e)
  = (score e, level e, items (spawnItem d e), S (nextOid e), collected (log e)).
Proof.
  intros Hact. unfold spawnLoop. rewrite Hact. reflexivity.
Qed.

(** [handleItemCollection] and [collectAll] *)

Lemma handleItemCollection_collected item e :
  collected (log (handleItemCollection item e)) = collected (log e) ++ [item].
Proof.
  by_cases; rewrite ?collected_snoc, ?app_nil_r; reflexivity.
Qed.

Lemma handleItemCollection_nextOid item e :
  nextOid (handleItemCollection item e) = nextOid e.
Proof. by_cases; reflexivity. Qed.

Lemma addScore_level_score points e :
  0 <= score e -> 0 <= points -> level e = score e / 500 + 1 ->
  0 <= score (addScore points e)
  /\ level (addScore points e) = score (addScore points e) / 500 + 1.
Proof.
  intros Hs Hp Hl. unfold addScore, emit. eng.
  assert (score e / 500 <= (score e + points) / 500)
    by (apply Z.div_le_mono; lia).
  destruct (Z.gtb_spec ((score e + points) / 500 + 1) (level e));
    eng; repeat (case_match; eng); lia.
Qed.

Lemma addScore_level_mono points e : level e <= level (addScore points e).
Proof.
  unfold addScore, emit. eng.
  destruct (Z.gtb_spec ((score e + points) / 500 + 1) (level e));
    eng; repeat (case_match; eng); lia.
Qed.

Lemma stop_score_level e : score (stop e) = score e /\ level (stop e) = level e.
Proof.
  pose proof (game_stop e) as H. unfold game in H. now simplify_eq.
Qed.

Lemma handleItemCollection_level_score item e :
  0 <= score e -> 0 <= Item.score item -> level e = score e / 500 + 1 ->
  0 <= score (handleItemCollection item e)
  /\ level (handleItemCollection item e)
     = score (handleItemCollection item e) / 500 + 1.
Proof.
  intros Hs Hp Hl. unfold handleItemCollection.
  destruct (Item.type item =? "bomb")%string.
  - change (emit (Alert bombAlert) ?x) with (set_log (log x ++ [Alert bombAlert]) x).
    eng. destruct (stop_score_level (emit (Collect item) e)) as [-> ->].
    eng. auto.
  - now apply addScore_level_score.
Qed.

Lemma handleItemCollection_level_mono item e :
  level e <= level (handleItemCollection item e).
Proof.
  unfold handleItemCollection.
  destruct (Item.type item =? "bomb")%string.
  - change (emit (Alert bombAlert) ?x) with (set_log (log x ++ [Alert bombAlert]) x).
    eng. destruct (stop_score_level (emit (Collect item) e)) as [_ ->].
    eng. lia.
  - apply (addScore_level_mono _ (emit (Collect item) e)).
Qed.

Lemma collectAll_items b l e : items (collectAll b l e) = items e.
Proof.
  induction l as [|item l IH]; [reflexivity|].
  rewrite collectAll_cons. destruct (collides b item); [|assumption].
  now rewrite handleItemCollection_items.
Qed.

Lemma collectAll_nextOid b l e : nextOid (collectAll b l e) = nextOid e.
Proof.
  induction l as [|item l IH]; [reflexivity|].
  rewrite collectAll_cons. destruct (collides b item); [|assumption].
  now rewrite handleItemCollection_nextOid.
Qed.

Lemma collectAll_collected b l e :
  collected (log (collectAll b l e))
  = collected (log e) ++ reverse (filter (fun it => collides b it = true) l).
Proof.
  induction l as [|item l IH]; [now rewrite app_nil_r|].
  rewrite collectAll_cons. destruct (collides b item) eqn:Hc.
  - rewrite handleItemCollection_collected, IH.
    rewrite filter_cons_True by assumption.
    now rewrite reverse_cons, app_assoc.
  - rewrite IH. rewrite filter_cons_False by congruence. reflexivity.
Qed.

Lemma collectAll_level_score b l e :
  0 <= score e -> level e = score e / 500 + 1 ->
  Forall (fun it => 0 <= Item.score it) l ->
  0 <= score (collectAll b l e)
  /\ level (collectAll b l e) = score (collectAll b l e) / 500 + 1.
Proof.
  intros Hs Hl Hp. induction Hp as [|item l Hi Hp IH]; [auto|].
  rewrite collectAll_cons. destruct (collides b item); [|assumption].
  destruct IH. now apply handleItemCollection_level_score.
Qed.

Lemma collectAll_level_mono b l e : level e <= level (collectAll b l e).
Proof.
  induction l as [|item l IH]; [reflexivity|].
  rewrite collectAll_cons. destruct (collides b item); [|assumption].
  etransitivity; [exact IH | apply handleItemCollection_level_mono].
Qed.

(** ** The invariant *)

Lemma Inv_intro e s l its n c :
  game e = (s, l, its, n, c) ->
  0 <= s -> l = s / 500 + 1 ->
  Forall (fun it => 0 <= Item.score it) its ->
  NoDup (Item.oid <$> (its ++ c)) ->
  Forall (fun o => (o < n)%nat) (Item.oid <$> (its ++ c)) ->
  Inv e.
Proof.
  unfold game. intros [= <- <- <- <- <-]. intros. now constructor.
Qed.

Lemma Inv_game e1 e2 : game e1 = game e2 -> Inv e1 -> Inv e2.
Proof.
  intros Hg [H1 H2 H3 H4 H5]. symmetry in Hg.
  exact (Inv_intro _ _ _ _ _ _ Hg H1 H2 H3 H4 H5).
Qed.

Lemma oids_shrink (l k : list nat) n :
  l ⊆+ k -> NoDup k -> Forall (fun o => (o < n)%nat) k ->
  NoDup l /\ Forall (fun o => (o < n)%nat) l.
Proof.
  intros Hsub Hnd Hlt. split.
  - apply submseteq_sublist_r in Hsub as (l' & Hp & Hs).
    rewrite Hp. now apply (sublist_NoDup _ k).
  - rewrite Forall_forall in *. intros o Ho. apply Hlt.
    now apply (elem_of_submseteq l k).
Qed.

Lemma Inv_new : Inv new_GameEngine.
Proof.
  constructor; cbn; try lia; try reflexivity; constructor.
Qed.

Lemma spawnType_in_table rand lvl : spawnType rand lvl ∈ itemTypes.
Proof.
  unfold spawnType.
  generalize (selectType_in_table rand).
  generalize (selectType rand 0 itemTypes itemTypes_0). intros t Hin.
  assert (H0 : itemTypes_0 ∈ itemTypes) by (apply list_elem_of_In; now left).
  repeat match goal with
         | |- context [if ?c then _ else _] => destruct c
         end; assumption.
Qed.

Lemma spawnType_score rand lvl : 0 <= ItemType.score (spawnType rand lvl).
Proof.
  pose proof (spawnType_in_table rand lvl) as Hin.
  apply list_elem_of_In in Hin. cbn in Hin.
  destruct Hin as [<-|[<-|[<-|[]]]]; cbn; lia.
Qed.

Lemma Inv_spawnLoop d e : Inv e -> Inv (spawnLoop d e).
Proof.
  intros [H1 H2 H3 H4 H5].
  destruct (isGameActive e) eqn:Hact.
  2:{ unfold spawnLoop. rewrite Hact. now constructor. }
  unfold oids in *.
  eapply Inv_intro; [now apply game_spawnLoop|assumption..| | | ].
  - rewrite spawnItem_items. apply Forall_app. split; [assumption|].
    repeat constructor. cbn. apply spawnType_score.
  - rewrite spawnItem_items, <- app_assoc, fmap_app. cbn [app fmap list_fmap].
    rewrite <- Permutation_middle. rewrite <- fmap_app.
    apply NoDup_cons. split; [|assumption].
    intros Hin. rewrite Forall_forall in H5. specialize (H5 _ Hin). cbn in H5. lia.
  - rewrite spawnItem_items, <- app_assoc, fmap_app. cbn [app fmap list_fmap].
    rewrite <- Permutation_middle. rewrite <- fmap_app.
    constructor; [cbn; lia|].
    eapply Forall_impl; [exact H5|]. cbn. intros. lia.
Qed.

Lemma oid_updated_sublist (l : list Item.t) :
  Item.oid <$> filter (fun it => escaped it = false) (advance <$> l)
  `sublist_of` Item.oid <$> l.
Proof.
  transitivity (Item.oid <$> (advance <$> l)).
  - apply fmap_sublist, sublist_filter.
  - rewrite <- list_fmap_compose. reflexivity.
Qed.

Lemma Inv_updateItems e : Inv e -> Inv (updateItems e).
Proof.
  intros [H1 H2 H3 H4 H5]. rewrite updateItems_spec. unfold oids in *.
  assert (Hsub :
    Item.oid <$> (filter (fun it => escaped it = false) (advance <$> items e)
                  ++ collected (log e))
    ⊆+ Item.oid <$> (items e ++ collected (log e))).
  { rewrite !fmap_app. apply sublist_submseteq, sublist_app;
      [apply oid_updated_sublist | reflexivity]. }
  destruct (oids_shrink _ _ _ Hsub H4 H5).
  eapply Inv_intro; [reflexivity|assumption..| | | ]; try assumption.
  rewrite Forall_forall in *. intros it Hin.
  apply list_elem_of_filter in Hin as [_ Hin].
  apply list_elem_of_fmap in Hin as (it0 & -> & Hin). exact (H3 it0 Hin).
Qed.

Lemma filter_bool_partition {A} (f : A -> bool) (l : list A) :
  filter (fun x => f x = false) l ++ filter (fun x => f x = true) l ≡ₚ l.
Proof.
  induction l as [|x l IH]; [reflexivity|].
  destruct (f x) eqn:Hf.
  - rewrite (filter_cons_False (fun x => f x = false)) by congruence.
    rewrite (filter_cons_True (fun x => f x = true)) by assumption.
    now rewrite <- Permutation_middle, IH.
  - rewrite (filter_cons_True (fun x => f x = false)) by assumption.
    rewrite (filter_cons_False (fun x => f x = true)) by congruence.
    cbn. now rewrite IH.
Qed.

Lemma Inv_checkCollisions e : Inv e -> Inv (checkCollisions e).
Proof.
  intros [H1 H2 H3 H4 H5]. rewrite checkCollisions_spec. unfold oids in *.
  set (b := basketPosition e).
  destruct (collectAll_level_score b (items e) e H1 H2 H3) as [Hs Hl].
  assert (Hperm :
    filter (fun it => collides b it = false) (items e)
      ++ collected (log (collectAll b (items e) e))
    ≡ₚ items e ++ collected (log e)).
  { rewrite collectAll_collected, reverse_Permutation.
    rewrite (Permutation_app_comm (collected (log e))), app_assoc.
    now rewrite filter_bool_partition. }
  eapply Inv_intro; [reflexivity| exact Hs | exact Hl | | | ].
  - rewrite Forall_forall in *. intros it Hin.
    apply list_elem_of_filter in Hin as [_ Hin]. now apply H3.
  - eng. now rewrite Hperm.
  - eng. rewrite collectAll_nextOid. now rewrite Hperm.
Qed.

Lemma Inv_gameLoop e : Inv e -> Inv (gameLoop e).
Proof.
  intros H. destruct (isGameActive e) eqn:Hact.
  - eapply Inv_game; [symmetry; now apply game_gameLoop|].
    now apply Inv_checkCollisions, Inv_updateItems.
  - unfold gameLoop. now rewrite Hact.
Qed.

Lemma start_tick config d e :
  start config d e = notifyStateUpdate (gameLoop (beforeFirstTick config d e)).
Proof. reflexivity. Qed.

Lemma Inv_beforeFirstTick config d e : Inv e -> Inv (beforeFirstTick config d e).
Proof.
  intros [H1 H2 H3 H4 H5]. unfold beforeFirstTick.
  apply Inv_spawnLoop.
  match goal with
  | |- Inv (if ?c then startTimer ?x else ?x) =>
      apply (Inv_game x); [now destruct c|]
  end.
  unfold oids in *.
  assert (Hsub :
    Item.oid <$> ([] ++ collected (log e))
    ⊆+ Item.oid <$> (items e ++ collected (log e))).
  { apply sublist_submseteq, fmap_sublist, sublist_inserts_l. reflexivity. }
  destruct (oids_shrink _ _ _ Hsub H4 H5).
  eapply Inv_intro; [reflexivity|..]; try assumption; try constructor; reflexivity.
Qed.

Lemma Inv_start config d e : Inv e -> Inv (start config d e).
Proof.
  intros H. rewrite start_tick.
  eapply Inv_game; [symmetry; apply game_notifyStateUpdate|].
  now apply Inv_gameLoop, Inv_beforeFirstTick.
Qed.

Lemma Inv_step c e : Inv e -> Inv (step c e).
Proof.
  intros H. destruct c as [config d| |p|cb|cb|cb|h d|h]; cbn [step].
  - now apply Inv_start.
  - exact (Inv_game _ _ (eq_sym (game_stop e)) H).
  - exact (Inv_game _ _ (eq_sym (game_onPoseDetected p e)) H).
  - now apply (Inv_game e).
  - now apply (Inv_game e).
  - now apply (Inv_game e).
  - unfold fireTimer. destruct (timers e !! h) as [[ms|ms]|].
    + exact (Inv_game _ _ (eq_sym (game_countdown e)) H).
    + apply Inv_spawnLoop. now apply (Inv_game e).
    + assumption.
  - unfold fireFrame. case_decide; [|assumption].
    apply Inv_gameLoop. now apply (Inv_game e).
Qed.

Lemma Inv_run cs e : Inv e -> Inv (run cs e).
Proof.
  revert e. induction cs as [|c cs IH]; intros e H; [assumption|].
  cbn. apply IH. now apply Inv_step.
Qed.

Lemma Inv_reachable e : reachable e -> Inv e.
Proof.
  induction 1; [apply Inv_new | now apply Inv_step].
Qed.

Lemma Inv_atTick e : atTick e -> Inv e.
Proof.
  intros [e0 h Hr _|e0 config d Hr].
  - now apply (Inv_game e0), Inv_reachable.
  - now apply Inv_beforeFirstTick, Inv_reachable.
Qed.

(** ** Score and level *)

Lemma game_level e1 e2 : game e1 = game e2 -> level e1 = level e2.
Proof. unfold game. now intros [= _ -> _ _ _]. Qed.

Lemma gameLoop_level_mono e : level e <= level (gameLoop e).
Proof.
  destruct (isGameActive e) eqn:Hact.
  - rewrite (game_level _ _ (game_gameLoop e Hact)).
    rewrite checkCollisions_spec, updateItems_spec. eng.
    rewrite collectAll_set_items. eng. apply collectAll_level_mono.
  - unfold gameLoop. rewrite Hact. reflexivity.
Qed.

Lemma spawnLoop_level d e : level (spawnLoop d e) = level e.
Proof.
  destruct (isGameActive e) eqn:Hact.
  - pose proof (game_spawnLoop d e Hact) as H. unfold game in H. now simplify_eq.
  - unfold spawnLoop. now rewrite Hact.
Qed.

Lemma step_level_mono c e : is_Start c = false -> level e <= level (step c e).
Proof.
  intros Hc. destruct c as [config d| |p|cb|cb|cb|h d|h]; cbn [step];
    try discriminate; try reflexivity.
  - now rewrite (proj2 (stop_score_level e)).
  - now rewrite (game_level _ _ (game_onPoseDetected p e)).
  - unfold fireTimer. destruct (timers e !! h) as [[ms|ms]|]; [| |reflexivity].
    + now rewrite (game_level _ _ (game_countdown e)).
    + rewrite spawnLoop_level. reflexivity.
  - unfold fireFrame. case_decide; [|reflexivity].
    apply (gameLoop_level_mono (cancelAnimationFrame h e)).
Qed.

(** C4: in every reachable state the score is a non-negative integer and the
    level is [floor(score / 500) + 1], also after [addScore] with the points
    of any active item; no call other than [start] lowers the level; and in
    every tick the two facts hold after each single collection. *)
Theorem C4_score_level_invariant :
  forall e,
    (reachable e ->
     (0 <= score e /\ level e = score e / 500 + 1)
     /\ (forall item,
           item ∈ items e ->
           let m := addScore (Item.score item) e in
           0 <= score m /\ level m = score m / 500 + 1)
     /\ (forall c, is_Start c = false -> level e <= level (step c e)))
    /\ (atTick e ->
        forall l1 l2,
          items (updateItems e) = l1 ++ l2 ->
          let m := collectAll (basketPosition e) l2 (updateItems e) in
          0 <= score m /\ level m = score m / 500 + 1).
Proof.
  intros e. split.
  - intros Hr. pose proof (Inv_reachable e Hr) as HI. split; [|split].
    + split; [apply (inv_score e HI) | apply (inv_level e HI)].
    + intros item Hin m. destruct HI as [H1 H2 H3 _ _].
      rewrite Forall_forall in H3. apply addScore_level_score; auto.
    + intros c Hc. now apply step_level_mono.
  - intros Htick l1 l2 Hsplit m.
    destruct (Inv_updateItems e (Inv_atTick e Htick)) as [H1 H2 H3 _ _].
    rewrite Hsplit in H3. apply Forall_app in H3 as [_ H3].
    now apply collectAll_level_score.
Qed.

Lemma C4_score_level_invariant_witness :
  let e := step (Start (Config.mk (Number 60)) (appleDraw 0)) new_GameEngine in
  let apple := Item.mk 0 0 "apple" 100 5.5 1 (-44.5) in
  let e0 := cancelAnimationFrame 1 e in
  (0 <= score e /\ level e = score e / 500 + 1)
  /\ (let m := addScore (Item.score apple) e in
      0 <= score m /\ level m = score m / 500 + 1)
  /\ level e <= level (step (FireFrame 1) e)
  /\ (let m := collectAll (basketPosition e0) (items (updateItems e0)) (updateItems e0) in
      0 <= score m /\ level m = score m / 500 + 1).
Proof.
  intros e apple e0.
  assert (Hr : reachable e) by (apply reachable_step, reachable_new).
  assert (Hh : 1%nat ∈ frames e) by (vm_compute; reflexivity).
  destruct (proj1 (C4_score_level_invariant e) Hr) as (H1 & H2 & H3).
  split; [exact H1|]. split; [|split].
  - assert (Hin : apple ∈ items e) by (vm_compute; apply list_elem_of_here).
    exact (H2 apple Hin).
  - exact (H3 (FireFrame 1) eq_refl).
  - exact (proj2 (C4_score_level_invariant e0) (atTick_frame e 1%nat Hr Hh)
             [] (items (updateItems e0)) eq_refl).
Defined.

(** ** Collisions *)

Lemma collides_iff b item :
  collides b item = true
  <-> (Qabs (Item.y item - 500) < 30)%Q /\ Item.lane item = b.
Proof.
  unfold collides. rewrite andb_true_iff, Qlt_bool_iff, Z.eqb_eq. reflexivity.
Qed.

(** What one run of the loop body does to the items and to the history of
    collections. *)
Lemma gameLoop_tick e :
  isGameActive e = true ->
  let u := items (updateItems e) in
  items (gameLoop e) = filter (fun it => collides (basketPosition e) it = false) u
  /\ collected (log (gameLoop e))
     = collected (log e)
       ++ reverse (filter (fun it => collides (basketPosition e) it = true) u).
Proof.
  intros Hact u. pose proof (game_gameLoop e Hact) as Hg.
  unfold game in Hg. injection Hg as _ _ -> _ ->.
  rewrite checkCollisions_spec. eng.
  rewrite collectAll_collected. subst u.
  rewrite updateItems_spec. eng. auto.
Qed.

Lemma extends_refl e : extends e e.
Proof. exists []. now rewrite app_nil_r. Qed.

Lemma extends_trans e1 e2 e3 : extends e1 e2 -> extends e2 e3 -> extends e1 e3.
Proof.
  intros [k1 H1] [k2 H2]. exists (k1 ++ k2). now rewrite H2, H1, app_assoc.
Qed.

Lemma extends_game e e' : game e' = game e -> extends e e'.
Proof.
  unfold game. intros [= _ _ _ _ H]. exists []. now rewrite app_nil_r.
Qed.

Lemma extends_gameLoop e : extends e (gameLoop e).
Proof.
  destruct (isGameActive e) eqn:Hact.
  - eexists. exact (proj2 (gameLoop_tick e Hact)).
  - unfold gameLoop. rewrite Hact. apply extends_refl.
Qed.

Lemma extends_spawnLoop d e : extends e (spawnLoop d e).
Proof.
  destruct (isGameActive e) eqn:Hact.
  - pose proof (game_spawnLoop d e Hact) as H. unfold game in H.
    exists []. rewrite app_nil_r. now simplify_eq.
  - unfold spawnLoop. rewrite Hact. apply extends_refl.
Qed.

Lemma extends_step c e : extends e (step c e).
Proof.
  destruct c as [config d| |p|cb|cb|cb|h d|h]; cbn [step];
    try (now apply extends_game).
  - unfold start.
    eapply extends_trans; [|apply extends_game, game_notifyStateUpdate].
    eapply extends_trans; [|apply extends_gameLoop].
    eapply extends_trans; [|apply extends_spawnLoop].
    exists []. rewrite app_nil_r. now case_match.
  - apply extends_game, game_stop.
  - apply extends_game, game_onPoseDetected.
  - unfold fireTimer. destruct (timers e !! h) as [[ms|ms]|].
    + apply extends_game, game_countdown.
    + eapply extends_trans; [|apply extends_spawnLoop]. now apply extends_game.
    + apply extends_refl.
  - unfold fireFrame. case_decide; [|apply extends_refl].
    eapply extends_trans; [|apply extends_gameLoop]. now apply extends_game.
Qed.

Lemma extends_run cs e : extends e (run cs e).
Proof.
  revert e. induction cs as [|c cs IH]; intros e; [apply extends_refl|].
  cbn. eapply extends_trans; [apply extends_step | apply IH].
Qed.

Lemma filter_oid_absent (l : list Item.t) o :
  o ∉ Item.oid <$> l -> filter (fun it => Item.oid it = o) l = [].
Proof.
  induction l as [|x l IH]; intros Hnin; [reflexivity|].
  rewrite fmap_cons in Hnin. apply not_elem_of_cons in Hnin as [Hne Hnin].
  rewrite filter_cons_False by congruence. now apply IH.
Qed.

Lemma count_NoDup_fmap (l : list Item.t) item :
  NoDup (Item.oid <$> l) -> item ∈ l ->
  length (filter (fun it => Item.oid it = Item.oid item) l) = 1%nat.
Proof.
  induction l as [|x l IH]; intros Hnd Hin.
  - now apply elem_of_nil in Hin.
  - rewrite fmap_cons in Hnd. apply NoDup_cons in Hnd as [Hx Hnd].
    apply elem_of_cons in Hin as [->|Hin].
    + rewrite filter_cons_True by reflexivity.
      now rewrite filter_oid_absent.
    + rewrite filter_cons_False; [now apply IH|].
      intros Heq. apply Hx. rewrite Heq. now apply list_elem_of_fmap_2.
Qed.

Lemma escaped_not_collides b item : escaped item = true -> collides b item = false.
Proof.
  intros He. apply escaped_iff in He.
  destruct (collides b item) eqn:Hc; [|reflexivity].
  apply collides_iff in Hc as [Hy _].
  apply Qabs_Qlt_condition in Hy as [_ Hy]. exfalso. lra.
Qed.

Lemma fireFrame_live h e :
  h ∈ frames e -> step (FireFrame h) e = gameLoop (cancelAnimationFrame h e).
Proof. intros Hh. cbn [step]. unfold fireFrame. now case_decide. Qed.

(** C6: a tick of an active engine collects exactly the items that, after the
    position update, are within 30 of row 500 in the basket's lane; the
    collected items are gone from [this.items]; no object is collected twice
    in the tick; and whatever happens afterwards, a collected object has been
    collected exactly once and is never active again. *)
Theorem C6_collision_once :
  forall e,
    atTick e -> isGameActive e = true ->
    let moved := advance <$> items e in
    let e' := gameLoop e in
    exists hits,
      collected (log e') = collected (log e) ++ hits
      /\ (forall item,
            item ∈ hits
            <-> item ∈ moved
                /\ (Qabs (Item.y item - 500) < 30)%Q
                /\ Item.lane item = basketPosition e)
      /\ (forall item,
            item ∈ items e'
            <-> item ∈ moved /\ ~ (600 < Item.y item)%Q /\ item ∉ hits)
      /\ NoDup (Item.oid <$> hits)
      /\ (forall item,
            item ∈ hits ->
            forall cs,
              let e'' := run cs e' in
              collections (Item.oid item) (log e'') = 1%nat
              /\ forall it', it' ∈ items e'' -> Item.oid it' <> Item.oid item).
Proof.
  intros e Htick Hact moved e'.
  assert (HI' : Inv e') by (now apply Inv_gameLoop, Inv_atTick).
  destruct (gameLoop_tick e Hact) as [Hitems Hcoll].
  rewrite updateItems_spec in Hitems, Hcoll.
  cbn [items set_items] in Hitems, Hcoll. fold moved e' in Hitems, Hcoll.
  set (b := basketPosition e) in *.
  set (u := filter (fun it => escaped it = false) moved) in *.
  exists (reverse (filter (fun it => collides b it = true) u)).
  assert (Hhit : forall item,
             item ∈ reverse (filter (fun it => collides b it = true) u)
             <-> item ∈ moved /\ collides b item = true).
  { intros item. rewrite elem_of_reverse. subst u.
    rewrite !list_elem_of_filter. split.
    - tauto.
    - intros [Hin Hc]. repeat split; try assumption.
      destruct (escaped item) eqn:He; [|reflexivity].
      apply (escaped_not_collides b) in He. congruence. }
  split; [exact Hcoll|]. split; [|split; [|split]].
  - intros item. rewrite Hhit, collides_iff. tauto.
  - intros item. rewrite Hitems, Hhit. subst u.
    rewrite !list_elem_of_filter, <- escaped_iff.
    destruct (escaped item), (collides b item); intuition congruence.
  - pose proof (inv_nodup e' HI') as Hnd. unfold oids in Hnd.
    rewrite Hcoll, !fmap_app in Hnd.
    apply NoDup_app in Hnd as (_ & _ & Hnd).
    now apply NoDup_app in Hnd as (_ & _ & Hnd).
  - intros item Hin cs e''.
    pose proof (Inv_run cs e' HI') as HI''. fold e'' in HI''.
    destruct (extends_run cs e') as [k Hk]. fold e'' in Hk.
    assert (Hin'' : item ∈ collected (log e'')).
    { rewrite Hk, Hcoll. rewrite !elem_of_app. auto. }
    pose proof (inv_nodup e'' HI'') as Hnd. unfold oids in Hnd.
    rewrite fmap_app in Hnd. apply NoDup_app in Hnd as (_ & Hdisj & Hnd).
    split.
    + unfold collections. now apply count_NoDup_fmap.
    + intros it' Hit' Heq. apply (Hdisj (Item.oid it')).
      * now apply list_elem_of_fmap_2.
      * rewrite Heq. now apply list_elem_of_fmap_2.
Qed.

Lemma reachable_run cs e : reachable e -> reachable (run cs e).
Proof.
  revert e. induction cs as [|c cs IH]; intros e H; [assumption|].
  cbn. apply IH. now apply reachable_step.
Qed.

Lemma C6_collision_once_witness :
  let e := run catchScript new_GameEngine in
  let e0 := cancelAnimationFrame 94 e in
  step (FireFrame 94) e = gameLoop e0
  /\ exists hits item,
       item ∈ hits
       /\ collected (log (gameLoop e0)) = collected (log e0) ++ hits
       /\ collections (Item.oid item)
            (log (run [FireFrame 95; FireFrame 96] (gameLoop e0))) = 1%nat.
Proof.
  intros e e0.
  assert (Hr : reachable e) by apply reachable_run, reachable_new.
  assert (Hh : 94%nat ∈ frames e) by (vm_compute; reflexivity).
  assert (Htick : atTick e0) by (now apply atTick_frame).
  assert (Hact : isGameActive e0 = true) by (vm_compute; reflexivity).
  split; [now apply fireFrame_live|].
  destruct (C6_collision_once e0 Htick Hact)
    as (hits & Hcoll & Hiff & _ & _ & Hlater).
  pose (item := hd (Item.mk 0 0 "" 0 0 0 0) (advance <$> items e0)).
  assert (Hin : item ∈ hits).
  { apply Hiff. split; [|split].
    - vm_compute. apply list_elem_of_here.
    - vm_compute. reflexivity.
    - vm_compute. reflexivity. }
  exists hits, item. split; [exact Hin|]. split; [exact Hcoll|].
  exact (proj1 (Hlater item Hin [FireFrame 95; FireFrame 96])).
Defined.

(** C8: [updateItems] keeps exactly the advanced items whose position does not
    exceed 600: an item whose updated position exceeds 600 is gone from
    [this.items], no remaining item is beyond 600, and score, level,
    remaining time and basket lane are what they were; such an item is
    still gone when the tick is over. *)
Theorem C8_escaped_items_removed :
  forall e,
    items (updateItems e)
    = filter (fun it => escaped it = false) (advance <$> items e)
    /\ (forall item,
          item ∈ items e ->
          (600 < Item.y item + Item.speed item)%Q ->
          (advance item ∉ items (updateItems e))
          /\ (isGameActive e = true -> advance item ∉ items (gameLoop e)))
    /\ (forall item, item ∈ items (updateItems e) -> ~ (600 < Item.y item)%Q)
    /\ score (updateItems e) = score e
    /\ level (updateItems e) = level e
    /\ timeLimit (updateItems e) = timeLimit e
    /\ basketPosition (updateItems e) = basketPosition e.
Proof.
  intros e.
  assert (Hgone : forall item,
             (600 < Item.y item + Item.speed item)%Q ->
             advance item ∉ items (updateItems e)).
  { intros item Hy Hin. rewrite updateItems_spec in Hin. cbn [items set_items] in Hin.
    apply list_elem_of_filter in Hin as [Hesc _].
    change (600 < Item.y (advance item))%Q in Hy.
    apply escaped_iff in Hy. cbn beta in Hesc. congruence. }
  split; [now rewrite updateItems_spec|]. split; [|split].
  - intros item _ Hy. split; [now apply Hgone|].
    intros Hact Hin. rewrite (proj1 (gameLoop_tick e Hact)) in Hin.
    apply list_elem_of_filter in Hin as [_ Hin]. now apply (Hgone item).
  - intros item Hin Hy. rewrite updateItems_spec in Hin. cbn [items set_items] in Hin.
    apply list_elem_of_filter in Hin as [Hesc _].
    apply escaped_iff in Hy. congruence.
  - rewrite updateItems_spec. now destruct e.
Qed.

Lemma C8_escaped_items_removed_witness :
  let item := Item.mk 0 1 "apple" 100 5.5 2 597 in
  let e := set_isGameActive true (set_items [item] new_GameEngine) in
  (advance item ∉ items (updateItems e))
  /\ (advance item ∉ items (gameLoop e))
  /\ items (updateItems e) = [].
Proof.
  intros item e.
  assert (Hin : item ∈ items e) by apply list_elem_of_here.
  assert (Hy : (600 < Item.y item + Item.speed item)%Q) by reflexivity.
  destruct (proj1 (proj2 (C8_escaped_items_removed e)) item Hin Hy) as [H1 H2].
  split; [exact H1|]. split; [exact (H2 eq_refl)|reflexivity].
Defined.

(** * Further properties of the engine *)

(** ** [stop] *)

Lemma truthyHandle_Some o h : truthyHandle o = Some h -> o = Some h /\ (0 < h)%nat.
Proof.
  destruct o as [[|n]|]; cbn; intros [= <-]. split; [reflexivity | lia].
Qed.

Lemma truthyHandle_positive h : (0 < h)%nat -> truthyHandle (Some h) = Some h.
Proof. destruct h; [lia | reflexivity]. Qed.

Ltac stop_cases e :=
  unfold stop, clearTimer; eng;
  destruct (truthyHandle (gameTimer e)); eng;
  destruct (truthyHandle (animationId e)); eng;
  destruct (truthyHandle (itemSpawnTimer e)); eng;
  destruct (onGameEnd e); eng.

Lemma stop_timers e :
  timers (stop e)
  = from_option (fun h m => delete h m) (fun m => m) (truthyHandle (itemSpawnTimer e))
      (from_option (fun h m => delete h m) (fun m => m) (truthyHandle (gameTimer e))
         (timers e)).
Proof. stop_cases e; reflexivity. Qed.

Lemma stop_frames e :
  frames (stop e)
  = from_option (fun h => frames e ∖ {[h]}) (frames e) (truthyHandle (animationId e)).
Proof. stop_cases e; reflexivity. Qed.

Lemma stop_handles e :
  gameTimer (stop e)
  = from_option (fun _ => None) (gameTimer e) (truthyHandle (gameTimer e))
  /\ animationId (stop e)
     = from_option (fun _ => None) (animationId e) (truthyHandle (animationId e))
  /\ itemSpawnTimer (stop e)
     = from_option (fun _ => None) (itemSpawnTimer e) (truthyHandle (itemSpawnTimer e))
  /\ nextTimer (stop e) = nextTimer e
  /\ nextFrame (stop e) = nextFrame e
  /\ isGameActive (stop e) = false.
Proof. stop_cases e; repeat split; reflexivity. Qed.

Lemma stop_fields e :
  score (stop e) = score e /\ level (stop e) = level e
  /\ timeLimit (stop e) = timeLimit e
  /\ basketPosition (stop e) = basketPosition e /\ items (stop e) = items e.
Proof. stop_cases e; repeat split; reflexivity. Qed.

Lemma stop_log e :
  log (stop e)
  = log e ++ (if onGameEnd e then [GameEnd (score e) (level e)] else []).
Proof. stop_cases e; rewrite ?app_nil_r; reflexivity. Qed.

Lemma truthyHandle_cleared o :
  truthyHandle (from_option (fun _ => None) o (truthyHandle o)) = None.
Proof. now destruct o as [[|n]|]. Qed.

Lemma stop_timers_lookup e h t :
  timers (stop e) !! h = Some t -> timers e !! h = Some t.
Proof.
  rewrite stop_timers.
  destruct (truthyHandle (itemSpawnTimer e)), (truthyHandle (gameTimer e));
    cbn; intros Hl;
    repeat (apply lookup_delete_Some in Hl as [_ Hl]); exact Hl.
Qed.

Lemma stop_callbacks e :
  onGameEnd (stop e) = onGameEnd e
  /\ onScoreChange (stop e) = onScoreChange e
  /\ onGameStateUpdate (stop e) = onGameStateUpdate e.
Proof.
  unfold stop, clearTimer. eng. repeat (case_step; eng); repeat split; congruence.
Qed.

(** X1: [stop] leaves the engine inactive with its three handles cleared or
    falsy, takes the timers and the frame it held out of the host, registers
    nothing, keeps score, level, remaining time, basket and items, and emits
    the game-end notification, once, when a callback is registered. *)
Theorem X1_stop_effect :
  forall e,
    let e' := stop e in
    isGameActive e' = false
    /\ (truthyHandle (gameTimer e') = None
        /\ truthyHandle (animationId e') = None
        /\ truthyHandle (itemSpawnTimer e') = None)
    /\ (forall h, truthyHandle (gameTimer e) = Some h -> timers e' !! h = None)
    /\ (forall h, truthyHandle (itemSpawnTimer e) = Some h -> timers e' !! h = None)
    /\ (forall h, truthyHandle (animationId e) = Some h -> h ∉ frames e')
    /\ (forall h t, timers e' !! h = Some t -> timers e !! h = Some t)
    /\ frames e' ⊆ frames e
    /\ (score e' = score e /\ level e' = level e /\ timeLimit e' = timeLimit e
        /\ basketPosition e' = basketPosition e /\ items e' = items e)
    /\ log e' = log e ++ (if onGameEnd e then [GameEnd (score e) (level e)] else []).
Proof.
  intros e e'. subst e'.
  destruct (stop_handles e) as (Hg & Ha & Hs & _ & _ & Hact).
  split; [exact Hact|]. split.
  { rewrite Hg, Ha, Hs. repeat split; apply truthyHandle_cleared. }
  split; [|split; [|split; [|split; [|split; [|split]]]]].
  - intros h Hh. rewrite stop_timers, Hh.
    destruct (truthyHandle (itemSpawnTimer e)) as [hs|]; cbn.
    + destruct (decide (hs = h)) as [->|Hne]; [apply lookup_delete_eq|].
      rewrite lookup_delete_ne by assumption. apply lookup_delete_eq.
    + apply lookup_delete_eq.
  - intros h Hh. rewrite stop_timers, Hh. cbn. apply lookup_delete_eq.
  - intros h Hh. rewrite stop_frames, Hh. cbn. intros Hin.
    apply elem_of_difference in Hin as [_ Hin]. apply Hin.
    now apply elem_of_singleton.
  - apply stop_timers_lookup.
  - rewrite stop_frames. destruct (truthyHandle (animationId e)); cbn;
      intros x Hx; [|exact Hx].
    now apply elem_of_difference in Hx as [Hx _].
  - apply stop_fields.
  - apply stop_log.
Qed.

Lemma X1_stop_effect_witness :
  let e := start (Config.mk (Number 60)) (appleDraw 0)
             (set_onGameEnd true new_GameEngine) in
  timers (stop e) !! 1%nat = None
  /\ timers (stop e) !! 2%nat = None
  /\ (1%nat ∉ frames (stop e))
  /\ log (stop e) = [GameEnd 0 1].
Proof.
  intros e.
  destruct (X1_stop_effect e) as (_ & _ & Hg & Hs & Ha & _ & _ & _ & Hlog).
  split; [exact (Hg 1%nat eq_refl)|].
  split; [exact (Hs 2%nat eq_refl)|].
  split; [exact (Ha 1%nat eq_refl)|exact Hlog].
Defined.

Lemma stop_stop e :
  stop (stop e)
  = if onGameEnd e
    then emit (GameEnd (score e) (level e)) (stop e)
    else stop e.
Proof.
  unfold stop at 1. unfold clearTimer.
  destruct (stop_handles e) as (Hg & Ha & Hs & _ & _ & Hact).
  destruct (stop_fields e) as (Hsc & Hlv & _).
  eng. rewrite Hg, truthyHandle_cleared. eng.
  rewrite Ha, truthyHandle_cleared. eng.
  rewrite Hs, truthyHandle_cleared. eng.
  rewrite Hsc, Hlv.
  rewrite (proj1 (stop_callbacks e)).
  assert (Hid : set_isGameActive false (stop e) = stop e).
  { generalize Hact. generalize (stop e). intros [] Hx. cbn in Hx. now subst. }
  rewrite Hid. reflexivity.
Qed.

(** X2: a second [stop] changes nothing but the history: it fires the
    game-end notification again, with the same score and level. *)
Theorem X2_stop_twice :
  forall e,
    stop (stop e)
    = if onGameEnd e
      then emit (GameEnd (score e) (level e)) (stop e)
      else stop e.
Proof. exact stop_stop. Qed.

(** ** What a method registers with the host *)

Lemma hostOf_stop_congr e1 e2 :
  hostOf e1 = hostOf e2 -> hostOf (stop e1) = hostOf (stop e2).
Proof.
  unfold hostOf. intros [= _ Hg Ha Hs Ht Hnt Hf Hnf].
  destruct (stop_handles e1) as (-> & -> & -> & -> & -> & ->).
  destruct (stop_handles e2) as (-> & -> & -> & -> & -> & ->).
  rewrite !stop_timers, !stop_frames.
  now rewrite Hg, Ha, Hs, Ht, Hnt, Hf, Hnf.
Qed.

Lemma hostOf_stop_stop e : hostOf (stop (stop e)) = hostOf (stop e).
Proof. rewrite stop_stop. now destruct (onGameEnd e). Qed.

Lemma hostOf_addScore points e : hostOf (addScore points e) = hostOf e.
Proof. unfold hostOf. by_cases; reflexivity. Qed.

Lemma hostOf_handleItemCollection item e :
  hostOf (handleItemCollection item e)
  = if isBomb item then hostOf (stop e) else hostOf e.
Proof.
  unfold handleItemCollection, isBomb.
  destruct (Item.type item =? "bomb")%string.
  - change (hostOf (emit (Alert bombAlert) ?x)) with (hostOf x).
    now apply hostOf_stop_congr.
  - now rewrite hostOf_addScore.
Qed.

Lemma collectAll_host b l e :
  hostOf (collectAll b l e)
  = if existsb isBomb (filter (fun it => collides b it = true) l)
    then hostOf (stop e) else hostOf e.
Proof.
  induction l as [|item l IH]; [reflexivity|].
  rewrite collectAll_cons. destruct (collides b item) eqn:Hc.
  - rewrite filter_cons_True by assumption. cbn [existsb].
    rewrite hostOf_handleItemCollection.
    destruct (isBomb item); cbn [orb]; [|exact IH].
    destruct (existsb isBomb (filter (fun it => collides b it = true) l)).
    + rewrite (hostOf_stop_congr _ _ IH). apply hostOf_stop_stop.
    + now apply hostOf_stop_congr.
  - rewrite filter_cons_False by congruence. exact IH.
Qed.

Lemma restOf_handleItemCollection item e :
  restOf (handleItemCollection item e) = restOf e.
Proof. unfold restOf. by_cases; reflexivity. Qed.

Lemma collectAll_rest b l e : restOf (collectAll b l e) = restOf e.
Proof.
  induction l as [|item l IH]; [reflexivity|].
  rewrite collectAll_cons. destruct (collides b item); [|exact IH].
  now rewrite restOf_handleItemCollection.
Qed.

Lemma handleItemCollection_score item e :
  score (handleItemCollection item e)
  = score e + (if isBomb item then 0 else Item.score item).
Proof.
  unfold handleItemCollection, isBomb.
  destruct (Item.type item =? "bomb")%string.
  - change (score (emit (Alert bombAlert) ?x)) with (score x).
    rewrite (proj1 (stop_fields _)). eng. lia.
  - unfold addScore. eng. repeat (case_step; eng); reflexivity.
Qed.

Lemma collectAll_score b l e :
  score (collectAll b l e)
  = score e
    + total (Item.score <$>
               filter (fun it => isBomb it = false)
                 (filter (fun it => collides b it = true) l)).
Proof.
  induction l as [|item l IH]; [cbn; lia|].
  rewrite collectAll_cons. destruct (collides b item) eqn:Hc.
  - rewrite filter_cons_True by assumption.
    rewrite handleItemCollection_score, IH.
    destruct (isBomb item) eqn:Hb.
    + rewrite filter_cons_False by congruence. lia.
    + rewrite filter_cons_True by assumption. rewrite fmap_cons.
      change (total (?x :: ?k)) with (x + total k). lia.
  - rewrite filter_cons_False by congruence. exact IH.
Qed.

Lemma gameLoop_eq e :
  isGameActive e = true ->
  gameLoop e
  = reschedule
      (notifyStateUpdate
         (set_items
            (filter (fun it => collides (basketPosition e) it = false)
               (filter (fun it => escaped it = false) (advance <$> items e)))
            (collectAll (basketPosition e)
               (filter (fun it => escaped it = false) (advance <$> items e)) e))).
Proof.
  intros Hact. unfold gameLoop. rewrite Hact. cbn [negb].
  rewrite checkCollisions_spec, updateItems_spec. eng.
  rewrite collectAll_set_items. reflexivity.
Qed.

(** ** One tick *)

Lemma hostOf_active e1 e2 : hostOf e1 = hostOf e2 -> isGameActive e1 = isGameActive e2.
Proof. unfold hostOf. now intros [= -> _ _ _ _ _ _ _]. Qed.

Lemma collectAll_active b l e :
  isGameActive e = true ->
  isGameActive (collectAll b l e)
  = negb (existsb isBomb (filter (fun it => collides b it = true) l)).
Proof.
  intros Hact. pose proof (collectAll_host b l e) as Hh.
  destruct (existsb isBomb _); apply hostOf_active in Hh; rewrite Hh.
  - apply (stop_handles e).
  - exact Hact.
Qed.

(** X3: what one tick of an active engine does.  Every colliding item that is
    not a bomb adds its points, whether it is handled before or after a bomb;
    the engine is inactive afterwards exactly when a bomb was among the
    colliding items; the colliding items are handled newest first; remaining
    time and basket are untouched; a new animation frame is requested in
    either case; and the last thing emitted is a snapshot of the final state. *)
Theorem X3_tick_outcome :
  forall e,
    isGameActive e = true ->
    let e' := gameLoop e in
    score e' = score e
               + total (Item.score <$> filter (fun it => isBomb it = false) (hitsOf e))
    /\ isGameActive e' = negb (existsb isBomb (hitsOf e))
    /\ collected (log e') = collected (log e) ++ reverse (hitsOf e)
    /\ timeLimit e' = timeLimit e
    /\ basketPosition e' = basketPosition e
    /\ animationId e' = Some (nextFrame e)
    /\ nextFrame e ∈ frames e'
    /\ (onGameStateUpdate e = true ->
        last (log e') = Some (StateUpdate (snapshot e'))).
Proof.
  intros e Hact e'. subst e'. rewrite (gameLoop_eq e Hact). unfold hitsOf.
  set (b := basketPosition e).
  set (u := filter (fun it => escaped it = false) (advance <$> items e)).
  set (m := collectAll b u e).
  pose proof (collectAll_rest b u e) as Hrest. fold m in Hrest.
  unfold restOf in Hrest. injection Hrest as Htl Hb _ _ _ Hnf _ _ Hcb.
  unfold reschedule, notifyStateUpdate. eng. rewrite Hcb.
  destruct (onGameStateUpdate e) eqn:Hon; eng;
    rewrite ?collected_snoc, ?app_nil_r;
    (split; [apply collectAll_score|]);
    (split; [now apply collectAll_active|]);
    (split; [apply collectAll_collected|]);
    (split; [exact Htl|]); (split; [exact Hb|]);
    (split; [now rewrite Hnf|]);
    (split; [rewrite Hnf; apply elem_of_union_l; now apply elem_of_singleton|]).
  - intros _. rewrite last_snoc. reflexivity.
  - discriminate.
Qed.

Lemma X3_tick_outcome_witness :
  let e := run bombScript new_GameEngine in
  let e' := gameLoop e in
  score e' = score e
             + total (Item.score <$> filter (fun it => isBomb it = false) (hitsOf e))
  /\ isGameActive e' = negb (existsb isBomb (hitsOf e))
  /\ last (log e') = Some (StateUpdate (snapshot e')).
Proof.
  intros e e'.
  assert (Hact : isGameActive e = true) by (vm_compute; reflexivity).
  destruct (X3_tick_outcome e Hact) as (H1 & H2 & _ & _ & _ & _ & _ & H8).
  split; [exact H1|]. split; [exact H2|].
  apply H8. vm_compute. reflexivity.
Defined.

(** ** The countdown *)

Lemma run_snoc cs c e : run (cs ++ [c]) e = step c (run cs e).
Proof. unfold run. now rewrite fold_left_app. Qed.

Lemma run_repeat_S c k e : run (repeat c (S k)) e = step c (run (repeat c k) e).
Proof.
  replace (repeat c (S k)) with (repeat c k ++ [c]); [apply run_snoc|].
  change [c] with (repeat c 1). rewrite <- repeat_app. f_equal. lia.
Qed.

Lemma countdown_continue e :
  1 < timeLimit e ->
  countdown e = notifyStateUpdate (set_timeLimit (timeLimit e - 1) e).
Proof.
  intros H. unfold countdown.
  assert (Ht : timeLimit (notifyStateUpdate (set_timeLimit (timeLimit e - 1) e))
               = timeLimit e - 1) by (by_cases; reflexivity).
  cbv zeta. rewrite Ht.
  destruct (Z.leb_spec (timeLimit e - 1) 0); [lia | reflexivity].
Qed.

Lemma countdown_last e :
  timeLimit e <= 1 ->
  countdown e = stop (notifyStateUpdate (set_timeLimit (timeLimit e - 1) e)).
Proof.
  intros H. unfold countdown.
  assert (Ht : timeLimit (notifyStateUpdate (set_timeLimit (timeLimit e - 1) e))
               = timeLimit e - 1) by (by_cases; reflexivity).
  cbv zeta. rewrite Ht.
  destruct (Z.leb_spec (timeLimit e - 1) 0); [reflexivity | lia].
Qed.

Lemma fireTimer_interval h ms d e :
  timers e !! h = Some (Interval ms) -> step (FireTimer h d) e = countdown e.
Proof. intros H. cbn [step]. unfold fireTimer. now rewrite H. Qed.

Lemma hostOf_tick_of_countdown e :
  hostOf (notifyStateUpdate (set_timeLimit (timeLimit e - 1) e)) = hostOf e
  /\ onGameEnd (notifyStateUpdate (set_timeLimit (timeLimit e - 1) e)) = onGameEnd e.
Proof. unfold hostOf. by_cases; split; reflexivity. Qed.

Lemma countdown_counts e h ms n d :
  timers e !! h = Some (Interval ms) ->
  timeLimit e = Z.of_nat (S n) ->
  forall k, (k <= n)%nat ->
    let ek := run (repeat (FireTimer h d) k) e in
    timeLimit ek = timeLimit e - Z.of_nat k
    /\ game ek = game e
    /\ hostOf ek = hostOf e
    /\ onGameEnd ek = onGameEnd e.
Proof.
  intros Hh Hn k. induction k as [|k IH]; intros Hk ek; subst ek.
  - cbn. repeat split. lia.
  - destruct (IH ltac:(lia)) as (Ht & Hg & Hhost & Hcb).
    rewrite run_repeat_S.
    set (ek := run (repeat (FireTimer h d) k) e) in *.
    assert (Hlive : timers ek !! h = Some (Interval ms)).
    { unfold hostOf in Hhost. injection Hhost as _ _ _ _ -> _ _ _. exact Hh. }
    rewrite (fireTimer_interval h ms d ek Hlive).
    rewrite countdown_continue by lia.
    destruct (hostOf_tick_of_countdown ek) as [Hh' Hcb'].
    rewrite Hh', Hcb', game_notifyStateUpdate.
    repeat split; try assumption.
    assert (Htl : timeLimit (notifyStateUpdate (set_timeLimit (timeLimit ek - 1) ek))
                  = timeLimit ek - 1) by (by_cases; reflexivity).
    rewrite Htl. lia.
Qed.

(** X4: the countdown.  With [n + 1] seconds left and the interval of
    [startTimer] live, each of the first [n] runs of its callback takes one
    second off and changes nothing else of the game; the run after that
    leaves 0 seconds, stops the engine with score and level as they were and
    ends with the game-end notification, and clears the interval, so that the
    callback does not run again. *)
Theorem X4_countdown_expires :
  forall e h ms n d,
    truthyHandle (gameTimer e) = Some h ->
    timers e !! h = Some (Interval ms) ->
    timeLimit e = Z.of_nat (S n) ->
    (forall k, (k <= n)%nat ->
       let ek := run (repeat (FireTimer h d) k) e in
       timeLimit ek = timeLimit e - Z.of_nat k
       /\ isGameActive ek = isGameActive e
       /\ game ek = game e)
    /\ (let eN := run (repeat (FireTimer h d) (S n)) e in
        timeLimit eN = 0
        /\ isGameActive eN = false
        /\ game eN = game e
        /\ timers eN !! h = None
        /\ (onGameEnd e = true ->
            last (log eN) = Some (GameEnd (score e) (level e)))
        /\ forall m, run (repeat (FireTimer h d) m) eN = eN).
Proof.
  intros e h ms n d Hg Hh Hn. split.
  - intros k Hk ek.
    destruct (countdown_counts e h ms n d Hh Hn k Hk) as (Ht & Hgame & Hhost & _).
    fold ek in Ht, Hgame, Hhost.
    repeat split; try assumption. now apply hostOf_active.
  - intros eN. subst eN. rewrite run_repeat_S.
    destruct (countdown_counts e h ms n d Hh Hn n (le_n n)) as (Ht & Hgame & Hhost & Hcb).
    set (en := run (repeat (FireTimer h d) n) e) in *.
    assert (Hlive : timers en !! h = Some (Interval ms)).
    { unfold hostOf in Hhost. injection Hhost as _ _ _ _ -> _ _ _. exact Hh. }
    assert (Hgt : truthyHandle (gameTimer en) = Some h).
    { unfold hostOf in Hhost. injection Hhost as _ -> _ _ _ _ _ _. exact Hg. }
    rewrite (fireTimer_interval h ms d en Hlive).
    rewrite countdown_last by lia.
    set (x := notifyStateUpdate (set_timeLimit (timeLimit en - 1) en)).
    destruct (hostOf_tick_of_countdown en) as [Hh' Hcb']. fold x in Hh', Hcb'.
    assert (Htl : timeLimit x = 0).
    { assert (timeLimit x = timeLimit en - 1) by (subst x; by_cases; reflexivity). lia. }
    assert (Hgx : game x = game e).
    { subst x. now rewrite game_notifyStateUpdate. }
    assert (Hdead : timers (stop x) !! h = None).
    { rewrite stop_timers.
      assert (Hxg : truthyHandle (gameTimer x) = Some h).
      { unfold hostOf in Hh'. injection Hh' as _ -> _ _ _ _ _ _. exact Hgt. }
      rewrite Hxg. cbn.
      destruct (truthyHandle (itemSpawnTimer x)) as [hs|]; cbn.
      - destruct (decide (hs = h)) as [->|Hne]; [apply lookup_delete_eq|].
        rewrite lookup_delete_ne by assumption. apply lookup_delete_eq.
      - apply lookup_delete_eq. }
    split; [|split; [|split; [|split; [|split]]]].
    + now rewrite (proj1 (proj2 (proj2 (stop_fields x)))).
    + apply (stop_handles x).
    + now rewrite game_stop.
    + exact Hdead.
    + intros Hon. rewrite stop_log, Hcb', Hcb, Hon, last_snoc.
      unfold game in Hgx. injection Hgx as -> -> _ _ _. reflexivity.
    + intros m. induction m as [|m IHm]; [reflexivity|].
      rewrite run_repeat_S, IHm. cbn [step]. unfold fireTimer. now rewrite Hdead.
Qed.

Lemma X4_countdown_expires_witness :
  let e := start (Config.mk (Number 3)) (appleDraw 0)
             (set_onGameEnd true new_GameEngine) in
  let d := appleDraw 1 in
  timeLimit (run (repeat (FireTimer 1 d) 2) e) = 1
  /\ isGameActive (run (repeat (FireTimer 1 d) 3) e) = false
  /\ last (log (run (repeat (FireTimer 1 d) 3) e)) = Some (GameEnd 0 1).
Proof.
  intros e d.
  destruct (X4_countdown_expires e 1%nat 1000 2%nat d eq_refl eq_refl eq_refl)
    as [Hk HN].
  split; [exact (proj1 (Hk 2%nat (le_n 2)))|].
  destruct HN as (_ & Hact & _ & _ & Hlast & _).
  split; [exact Hact | exact (Hlast eq_refl)].
Defined.

(** ** [start] *)

(** Runs [start] symbolically: the item it spawns is an apple at level 1,
    which the tick inside [start] neither removes nor collects. *)
Ltac run_start config d :=
  unfold start; eng;
  destruct (timeLimit_or_60 (Config.timeLimit config) >? 0);
    unfold startTimer; eng; unfold spawnLoop; eng; unfold spawnItem; eng;
    rewrite (proj1 (spawnType_gated (u_type d) 1) ltac:(lia));
    unfold gameLoop; eng; rewrite updateItems_spec; eng;
    cbn [fmap list_fmap app];
    match goal with
    | |- context [advance ?it] =>
        let He := fresh "He" in
        let Hc := fresh "Hc" in
        destruct (first_item_untouched 1 it eq_refl eq_refl) as [He Hc];
        set (item := it) in *;
        rewrite filter_cons_True by exact He; rewrite filter_nil;
        rewrite checkCollisions_spec; eng;
        rewrite filter_cons_True by exact Hc; rewrite filter_nil;
        rewrite collectAll_cons, Hc; cbn [collectAll fold_right]
    end;
    unfold notifyStateUpdate; eng;
    repeat (case_step; eng); try congruence.

Lemma start_effect config d e :
  let tl := timeLimit_or_60 (Config.timeLimit config) in
  let e' := start config d e in
  (score e' = 0 /\ level e' = 1 /\ basketPosition e' = 1
   /\ isGameActive e' = true /\ timeLimit e' = tl)
  /\ items e'
     = [Item.mk (nextOid e) (u_id d) "apple" 100 5.5 (Qfloor (u_lane d * 3)) (-44.5)]
  /\ nextOid e' = S (nextOid e)
  /\ log e'
     = log e ++ (if onGameStateUpdate e
                 then [StateUpdate (snapshot e'); StateUpdate (snapshot e')]
                 else [])
  /\ (frames e' = {[nextFrame e]} ∪ frames e
      /\ nextFrame e' = S (nextFrame e)
      /\ animationId e' = Some (nextFrame e))
  /\ (if tl >? 0
      then timers e' = <[S (nextTimer e) := Timeout 2600]>
                         (<[nextTimer e := Interval 1000]> (timers e))
           /\ nextTimer e' = S (S (nextTimer e))
           /\ gameTimer e' = Some (nextTimer e)
           /\ itemSpawnTimer e' = Some (S (nextTimer e))
      else timers e' = <[nextTimer e := Timeout 2600]> (timers e)
           /\ nextTimer e' = S (nextTimer e)
           /\ gameTimer e' = gameTimer e
           /\ itemSpawnTimer e' = Some (nextTimer e)).
Proof.
  intros tl e'. subst e' tl. run_start config d;
    rewrite <- ?app_assoc, ?app_nil_r;
    repeat split; reflexivity.
Qed.

Lemma start_callbacks config d e :
  onScoreChange (start config d e) = onScoreChange e
  /\ onGameEnd (start config d e) = onGameEnd e
  /\ onGameStateUpdate (start config d e) = onGameStateUpdate e.
Proof. run_start config d; repeat split; congruence. Qed.


(** X6: the sign of the configured time limit decides whether there is a
    countdown.  A positive limit becomes the remaining time and [start]
    registers the interval; a negative limit also becomes the remaining time,
    but [start] registers no interval and leaves [gameTimer] alone, so such a
    game is not timed. *)
Theorem X6_time_limit_sign :
  forall n d e,
    let e' := start (Config.mk (Number n)) d e in
    (0 < n ->
     timeLimit e' = n
     /\ gameTimer e' = Some (nextTimer e)
     /\ timers e' !! nextTimer e = Some (Interval 1000))
    /\ (n < 0 ->
        timeLimit e' = n
        /\ gameTimer e' = gameTimer e
        /\ forall h ms, timers e' !! h = Some (Interval ms) ->
                        timers e !! h = Some (Interval ms)).
Proof.
  intros n d e e'.
  destruct (start_effect (Config.mk (Number n)) d e)
    as ((_ & _ & _ & _ & Htl) & _ & _ & _ & _ & Ht).
  fold e' in Htl, Ht. cbn [Config.timeLimit] in Htl, Ht.
  split; intros Hn.
  - assert (Hv : timeLimit_or_60 (Number n) = n).
    { cbn. destruct (Z.eqb_spec n 0); [lia | reflexivity]. }
    rewrite Hv in Htl, Ht.
    destruct (Z.gtb_spec n 0); [|lia].
    destruct Ht as (Ht & _ & Hg & _). rewrite Ht.
    repeat split; try assumption.
    rewrite lookup_insert_ne by lia. apply lookup_insert_eq.
  - assert (Hv : timeLimit_or_60 (Number n) = n).
    { cbn. destruct (Z.eqb_spec n 0); [lia | reflexivity]. }
    rewrite Hv in Htl, Ht.
    destruct (Z.gtb_spec n 0); [lia|].
    destruct Ht as (Ht & _ & Hg & _). rewrite Ht.
    repeat split; try assumption.
    intros h ms Hl. apply lookup_insert_Some in Hl as [[_ [=]]|[_ Hl]]. exact Hl.
Qed.

Lemma X6_time_limit_sign_witness :
  let d := appleDraw 0 in
  timeLimit (start (Config.mk (Number 30)) d new_GameEngine) = 30
  /\ timeLimit (start (Config.mk (Number (-5))) d new_GameEngine) = -5
  /\ gameTimer (start (Config.mk (Number (-5))) d new_GameEngine) = None.
Proof.
  intros d.
  destruct (X6_time_limit_sign 30 d new_GameEngine) as [Hpos _].
  destruct (X6_time_limit_sign (-5) d new_GameEngine) as [_ Hneg].
  split; [exact (proj1 (Hpos eq_refl))|].
  destruct (Hneg eq_refl) as (H1 & H2 & _).
  split; [exact H1 | exact H2].
Defined.

(** ** Handles *)

Lemma Handles_host e1 e2 : hostOf e1 = hostOf e2 -> Handles e1 -> Handles e2.
Proof.
  unfold hostOf. intros [= _ _ _ _ Ht Hnt Hf Hnf] [H1 H2 H3].
  constructor; rewrite <- ?Ht, <- ?Hnt, <- ?Hf, <- ?Hnf; assumption.
Qed.

Lemma Handles_new : Handles new_GameEngine.
Proof.
  constructor; cbn.
  - intros h t Hl. now rewrite lookup_empty in Hl.
  - intros h Hin. now apply not_elem_of_empty in Hin.
  - lia.
Qed.

Lemma Handles_stop e : Handles e -> Handles (stop e).
Proof.
  intros [H1 H2 H3].
  destruct (stop_handles e) as (_ & _ & _ & Hnt & Hnf & _).
  constructor; rewrite ?Hnt, ?Hnf.
  - intros h t Hl. apply (H1 h t). now apply stop_timers_lookup.
  - intros h Hin. apply H2. revert Hin. rewrite stop_frames.
    destruct (truthyHandle (animationId e)); cbn; [|auto].
    intros Hin. now apply elem_of_difference in Hin as [Hin _].
  - assumption.
Qed.

Lemma Handles_insert_timer t e x :
  Handles e ->
  timers x = <[nextTimer e := t]> (timers e) ->
  nextTimer x = S (nextTimer e) ->
  frames x = frames e -> nextFrame x = nextFrame e ->
  Handles x.
Proof.
  intros [H1 H2 H3] Ht Hnt Hf Hnf. constructor; rewrite ?Ht, ?Hnt, ?Hf, ?Hnf.
  - intros h t' Hl. apply lookup_insert_Some in Hl as [[<- _]|[_ Hl]].
    + lia.
    + specialize (H1 _ _ Hl). lia.
  - assumption.
  - lia.
Qed.

Lemma Handles_delete_timer h e x :
  Handles e ->
  timers x = delete h (timers e) ->
  nextTimer x = nextTimer e ->
  frames x = frames e -> nextFrame x = nextFrame e ->
  Handles x.
Proof.
  intros [H1 H2 H3] Ht Hnt Hf Hnf. constructor; rewrite ?Ht, ?Hnt, ?Hf, ?Hnf.
  - intros h' t' Hl. apply lookup_delete_Some in Hl as [_ Hl]. now apply (H1 h' t').
  - assumption.
  - assumption.
Qed.

Lemma Handles_reschedule e : Handles e -> Handles (reschedule e).
Proof.
  intros [H1 H2 H3]. unfold reschedule. constructor; eng.
  - intros h t Hl. now apply (H1 h t).
  - intros h Hin. apply elem_of_union in Hin as [Hin|Hin].
    + apply elem_of_singleton in Hin as ->. lia.
    + specialize (H2 _ Hin). lia.
  - lia.
Qed.

Lemma Handles_cancelAnimationFrame h e : Handles e -> Handles (cancelAnimationFrame h e).
Proof.
  intros [H1 H2 H3]. constructor; eng; try assumption.
  intros h' Hin. apply elem_of_difference in Hin as [Hin _]. now apply H2.
Qed.

Lemma hostOf_reschedule_congr e1 e2 :
  hostOf e1 = hostOf e2 -> hostOf (reschedule e1) = hostOf (reschedule e2).
Proof.
  unfold hostOf, reschedule. intros [= Ha Hg _ Hs Ht Hnt Hf Hnf]. eng.
  now rewrite Ha, Hg, Hs, Ht, Hnt, Hf, Hnf.
Qed.

(** What [gameLoop] leaves registered: what [reschedule] does after either
    nothing or [stop]. *)
Lemma gameLoop_host e :
  isGameActive e = true ->
  hostOf (gameLoop e)
  = hostOf (reschedule (if existsb isBomb (hitsOf e) then stop e else e)).
Proof.
  intros Hact. rewrite (gameLoop_eq e Hact).
  apply hostOf_reschedule_congr.
  transitivity (hostOf (collectAll (basketPosition e)
                   (filter (fun it => escaped it = false) (advance <$> items e)) e)).
  - unfold hostOf, notifyStateUpdate. now case_step.
  - rewrite collectAll_host. unfold hitsOf. now destruct (existsb isBomb _).
Qed.

Lemma Handles_gameLoop e : Handles e -> Handles (gameLoop e).
Proof.
  intros H. destruct (isGameActive e) eqn:Hact.
  - apply (Handles_host _ _ (eq_sym (gameLoop_host e Hact))).
    apply Handles_reschedule. destruct (existsb isBomb _); [now apply Handles_stop | exact H].
  - unfold gameLoop. now rewrite Hact.
Qed.

Lemma spawnLoop_host d e :
  isGameActive e = true ->
  hostOf (spawnLoop d e)
  = (true, gameTimer e, animationId e, Some (nextTimer e),
     <[nextTimer e := Timeout (Z.max 800 (3000 - level e * 400))]> (timers e),
     S (nextTimer e), frames e, nextFrame e).
Proof.
  intros Hact. unfold spawnLoop, spawnItem, hostOf. rewrite Hact. cbn [negb]. eng.
  now rewrite Hact.
Qed.

Lemma Handles_spawnLoop d e : Handles e -> Handles (spawnLoop d e).
Proof.
  intros H. destruct (isGameActive e) eqn:Hact.
  - pose proof (spawnLoop_host d e Hact) as Hh. unfold hostOf in Hh.
    injection Hh as _ _ _ _ Ht Hnt Hf Hnf.
    now apply (Handles_insert_timer _ e _ H Ht).
  - unfold spawnLoop. now rewrite Hact.
Qed.

Lemma Handles_countdown e : Handles e -> Handles (countdown e).
Proof.
  intros H. unfold countdown. cbv zeta.
  destruct (hostOf_tick_of_countdown e) as [Hh _].
  match goal with |- Handles (if ?c then _ else _) => destruct c end.
  - apply Handles_stop. now apply (Handles_host e).
  - now apply (Handles_host e).
Qed.

Lemma Handles_start config d e : Handles e -> Handles (start config d e).
Proof.
  intros [H1 H2 H3].
  destruct (start_effect config d e) as (_ & _ & _ & _ & (Hf & Hnf & _) & Ht).
  constructor; rewrite ?Hf, ?Hnf.
  - destruct (timeLimit_or_60 (Config.timeLimit config) >? 0);
      destruct Ht as (-> & -> & _); intros h t Hl;
      repeat (apply lookup_insert_Some in Hl as [[<- _]|[_ Hl]]; [lia|]);
      specialize (H1 _ _ Hl); lia.
  - intros h Hin. apply elem_of_union in Hin as [Hin|Hin].
    + apply elem_of_singleton in Hin as ->. lia.
    + specialize (H2 _ Hin). lia.
  - destruct (timeLimit_or_60 (Config.timeLimit config) >? 0);
      destruct Ht as (_ & -> & _); lia.
Qed.

Lemma Handles_step c e : Handles e -> Handles (step c e).
Proof.
  intros H. destruct c as [config d| |p|cb|cb|cb|h d|h]; cbn [step].
  - now apply Handles_start.
  - now apply Handles_stop.
  - unfold onPoseDetected. repeat case_step; try assumption; now apply (Handles_host e).
  - now apply (Handles_host e).
  - now apply (Handles_host e).
  - now apply (Handles_host e).
  - unfold fireTimer. destruct (timers e !! h) as [[ms|ms]|]; [| |assumption].
    + now apply Handles_countdown.
    + apply Handles_spawnLoop.
      now apply (Handles_delete_timer h e).
  - unfold fireFrame. case_decide; [|assumption].
    now apply Handles_gameLoop, Handles_cancelAnimationFrame.
Qed.

Lemma Handles_reachable e : reachable e -> Handles e.
Proof. induction 1; [apply Handles_new | now apply Handles_step]. Qed.

(** ** Starting again while a game is running *)

Lemma countdown_timeLimit e : timeLimit (countdown e) = timeLimit e - 1.
Proof.
  unfold countdown. cbv zeta.
  assert (Ht : timeLimit (notifyStateUpdate (set_timeLimit (timeLimit e - 1) e))
               = timeLimit e - 1) by (by_cases; reflexivity).
  match goal with |- timeLimit (if ?c then _ else _) = _ => destruct c end.
  - now rewrite (proj1 (proj2 (proj2 (stop_fields _)))).
  - exact Ht.
Qed.

Lemma countdown_log e :
  onGameStateUpdate e = true ->
  exists rest,
    log (countdown e)
    = log e ++ StateUpdate (snapshot (set_timeLimit (timeLimit e - 1) e)) :: rest.
Proof.
  intros Hon. unfold countdown. cbv zeta.
  assert (Hl : log (notifyStateUpdate (set_timeLimit (timeLimit e - 1) e))
               = log e ++ [StateUpdate (snapshot (set_timeLimit (timeLimit e - 1) e))]).
  { unfold notifyStateUpdate. eng. now rewrite Hon. }
  match goal with |- context [if ?c then _ else _] => destruct c end.
  - rewrite stop_log, Hl, <- app_assoc. eexists. reflexivity.
  - rewrite Hl. eexists. reflexivity.
Qed.

(** X7: [start] cancels nothing.  On a reachable engine every timer and every
    requested frame that is live before [start] is live after it.  In
    particular a countdown that was running goes on beside the new one, and
    [stop] does not reach it any more: on the stopped engine its callback
    still takes a second off the remaining time and emits a snapshot. *)
Theorem X7_restart_leaks :
  forall e config d,
    reachable e ->
    let e1 := start config d e in
    (forall h t, timers e !! h = Some t -> timers e1 !! h = Some t)
    /\ (forall h, h ∈ frames e -> h ∈ frames e1)
    /\ (forall h ms d',
          timers e !! h = Some (Interval ms) ->
          0 < timeLimit_or_60 (Config.timeLimit config) ->
          let e2 := stop e1 in
          let e3 := step (FireTimer h d') e2 in
          isGameActive e2 = false
          /\ timers e2 !! h = Some (Interval ms)
          /\ timeLimit e3 = timeLimit e2 - 1
          /\ (onGameStateUpdate e = true ->
              exists s rest, log e3 = log e2 ++ StateUpdate s :: rest)).
Proof.
  intros e config d Hr e1.
  destruct (Handles_reachable e Hr) as [H1 H2 H3].
  destruct (start_effect config d e) as (_ & _ & _ & _ & (Hf & _ & _) & Ht).
  fold e1 in Hf, Ht.
  assert (Hkeep : forall h t, timers e !! h = Some t -> timers e1 !! h = Some t).
  { intros h t Hl. specialize (H1 _ _ Hl).
    destruct (timeLimit_or_60 (Config.timeLimit config) >? 0);
      destruct Ht as (-> & _); rewrite ?lookup_insert_ne by lia; exact Hl. }
  split; [exact Hkeep|]. split.
  { intros h Hin. rewrite Hf. now apply elem_of_union_r. }
  intros h ms d' Hl Hpos e2 e3.
  pose proof (H1 _ _ Hl) as Hh.
  destruct (Z.gtb_spec (timeLimit_or_60 (Config.timeLimit config)) 0); [|lia].
  destruct Ht as (Ht & _ & Hg & Hs).
  assert (Hlive : timers e2 !! h = Some (Interval ms)).
  { subst e2. rewrite stop_timers, Hg, Hs.
    rewrite !truthyHandle_positive by lia. cbn.
    rewrite !lookup_delete_ne by lia. now apply Hkeep. }
  split; [apply (stop_handles e1)|]. split; [exact Hlive|].
  subst e3. rewrite (fireTimer_interval h ms d' e2 Hlive).
  split; [apply countdown_timeLimit|].
  intros Hon. eexists. apply countdown_log.
  subst e2. rewrite (proj2 (proj2 (stop_callbacks e1))).
  subst e1. now rewrite (proj2 (proj2 (start_callbacks config d e))).
Qed.

Lemma X7_restart_leaks_witness :
  let cfg := Config.mk (Number 60) in
  let e := step (Start cfg (appleDraw 0))
             (set_onGameStateUpdate true new_GameEngine) in
  let e2 := stop (start cfg (appleDraw 1) e) in
  timers e2 !! 1%nat = Some (Interval 1000)
  /\ isGameActive e2 = false
  /\ timeLimit (step (FireTimer 1 (appleDraw 2)) e2) = 59.
Proof.
  intros cfg e e2.
  assert (Hr : reachable e).
  { apply reachable_step.
    exact (reachable_step (SetGameStateUpdateCallback true) _ reachable_new). }
  destruct (X7_restart_leaks e cfg (appleDraw 1) Hr) as (_ & _ & H).
  destruct (H 1%nat 1000 (appleDraw 2) eq_refl eq_refl) as (Hact & Hlive & Ht & _).
  split; [exact Hlive|]. split; [exact Hact | exact Ht].
Defined.

(** ** One [start] at a time *)

Lemma Loops_ext e1 e2 :
  hostOf e1 = hostOf e2 -> timeLimit e1 = timeLimit e2 -> Loops e1 -> Loops e2.
Proof.
  intros Hh Htl [H1 H2 H3 H4].
  pose proof (Handles_host _ _ Hh H1) as H1'.
  unfold hostOf in Hh. injection Hh as Ha Hg _ Hs Ht _ _ _.
  constructor; rewrite <- ?Ha, <- ?Hg, <- ?Hs, <- ?Ht, <- ?Htl; assumption.
Qed.

Lemma Loops_new : Loops new_GameEngine.
Proof.
  constructor; cbn.
  - apply Handles_new.
  - reflexivity.
  - discriminate.
  - intros h t Hl. now rewrite lookup_empty in Hl.
Qed.

Lemma lookup_delete_delete (m : gmap nat Timer) (a h : nat) :
  delete a (delete h m) !! h = None.
Proof.
  destruct (decide (a = h)) as [->|Hne]; [apply lookup_delete_eq|].
  rewrite lookup_delete_ne by assumption. apply lookup_delete_eq.
Qed.

Lemma Loops_stop_of x :
  Handles x ->
  (forall h t,
      timers x !! h = Some t ->
      match t with
      | Timeout _ => itemSpawnTimer x = Some h
      | Interval _ => gameTimer x = Some h
      end) ->
  Loops (stop x).
Proof.
  intros H1 H4.
  assert (Hempty : timers (stop x) = ∅).
  { apply map_eq. intros h. rewrite lookup_empty.
    destruct (timers (stop x) !! h) as [t|] eqn:Hl; [exfalso|reflexivity].
    pose proof (stop_timers_lookup x h t Hl) as Hl0.
    pose proof (handles_timers x H1 h t Hl0) as Hpos.
    specialize (H4 h t Hl0). rewrite stop_timers in Hl.
    destruct t as [ms|ms].
    - rewrite H4, truthyHandle_positive in Hl by lia. cbn in Hl.
      destruct (truthyHandle (itemSpawnTimer x)) as [hs|]; cbn in Hl.
      + rewrite lookup_delete_delete in Hl. discriminate.
      + rewrite lookup_delete_eq in Hl. discriminate.
    - rewrite H4, truthyHandle_positive in Hl by lia. cbn in Hl.
      rewrite lookup_delete_eq in Hl. discriminate. }
  constructor.
  - now apply Handles_stop.
  - intros _. exact Hempty.
  - intros Hact. rewrite (proj2 (proj2 (proj2 (proj2 (proj2 (stop_handles x)))))) in Hact.
    discriminate.
  - intros h t Hl. rewrite Hempty, lookup_empty in Hl. discriminate.
Qed.

Lemma Loops_stop e : Loops e -> Loops (stop e).
Proof.
  intros [H1 _ _ H4]. apply Loops_stop_of; [exact H1|].
  intros h t Hl. specialize (H4 h t Hl). destruct t; [now destruct H4 | exact H4].
Qed.

Lemma Loops_reschedule e : Loops e -> Loops (reschedule e).
Proof.
  intros [H1 H2 H3 H4]. constructor.
  - now apply Handles_reschedule.
  - exact H2.
  - exact H3.
  - exact H4.
Qed.

Lemma gameLoop_timeLimit e : timeLimit (gameLoop e) = timeLimit e.
Proof.
  destruct (isGameActive e) eqn:Hact.
  - rewrite (gameLoop_eq e Hact).
    pose proof (collectAll_rest (basketPosition e)
                  (filter (fun it => escaped it = false) (advance <$> items e)) e) as Hr.
    unfold restOf in Hr. injection Hr as Htl _ _ _ _ _ _ _ _.
    unfold reschedule, notifyStateUpdate. eng. now case_step.
  - unfold gameLoop. now rewrite Hact.
Qed.

Lemma Loops_gameLoop e : Loops e -> Loops (gameLoop e).
Proof.
  intros H. destruct (isGameActive e) eqn:Hact.
  - apply (Loops_ext (reschedule (if existsb isBomb (hitsOf e) then stop e else e))).
    + symmetry. now apply gameLoop_host.
    + rewrite gameLoop_timeLimit.
      destruct (existsb isBomb (hitsOf e)); [|reflexivity].
      exact (proj1 (proj2 (proj2 (stop_fields e)))).
    + apply Loops_reschedule.
      destruct (existsb isBomb (hitsOf e)); [now apply Loops_stop | exact H].
  - unfold gameLoop. now rewrite Hact.
Qed.

Lemma Loops_active_of_timer e h t :
  Loops e -> timers e !! h = Some t -> isGameActive e = true.
Proof.
  intros [_ H2 _ _] Hl. destruct (isGameActive e); [reflexivity|].
  rewrite (H2 eq_refl), lookup_empty in Hl. discriminate.
Qed.

Lemma Loops_spawn_fires d h ms e :
  Loops e -> timers e !! h = Some (Timeout ms) ->
  Loops (spawnLoop d (clearHandle h e)).
Proof.
  intros HL Hl. pose proof (Loops_active_of_timer e h _ HL Hl) as Hact.
  destruct HL as [H1 H2 H3 H4].
  pose proof (spawnLoop_host d (clearHandle h e) Hact) as Hh.
  unfold hostOf in Hh. eng. injection Hh as Ha Hg _ Hs Ht Hnt Hf Hnf.
  assert (Htl : timeLimit (spawnLoop d (clearHandle h e)) = timeLimit e).
  { unfold spawnLoop, spawnItem. eng. now rewrite Hact. }
  constructor; rewrite ?Ha, ?Hg, ?Hs, ?Ht, ?Htl.
  - eapply Handles_insert_timer with (e := clearHandle h e);
      [now apply (Handles_delete_timer h e) | exact Ht | exact Hnt | exact Hf | exact Hnf].
  - discriminate.
  - intros _. eexists _, _. split; [reflexivity|]. apply lookup_insert_eq.
  - intros h' t' Hl'. apply lookup_insert_Some in Hl' as [[<- <-]|[Hne Hl']].
    + reflexivity.
    + apply lookup_delete_Some in Hl' as [Hne' Hl'].
      pose proof (H4 _ _ Hl') as Hx. pose proof (H4 _ _ Hl) as Hy.
      destruct t'; [exact Hx|]. cbn in Hy. congruence.
Qed.

Lemma Loops_countdown_fires h ms e :
  Loops e -> timers e !! h = Some (Interval ms) -> Loops (countdown e).
Proof.
  intros HL Hl. pose proof (loops_only e HL h _ Hl) as [_ Hpos].
  destruct (hostOf_tick_of_countdown e) as [Hh _].
  destruct (Z.le_gt_cases (timeLimit e) 1).
  - rewrite countdown_last by assumption.
    destruct HL as [H1 _ _ H4].
    apply Loops_stop_of; [now apply (Handles_host e)|].
    unfold hostOf in Hh. injection Hh as _ Hg _ Hs Ht _ _ _.
    rewrite Hg, Hs, Ht. intros h' t' Hl'. specialize (H4 _ _ Hl').
    destruct t'; [now destruct H4 | exact H4].
  - rewrite countdown_continue by lia.
    set (x := notifyStateUpdate (set_timeLimit (timeLimit e - 1) e)) in *.
    assert (Htl : timeLimit x = timeLimit e - 1) by (subst x; by_cases; reflexivity).
    destruct HL as [H1 H2 H3 H4].
    pose proof (Handles_host _ _ (eq_sym Hh) H1) as H1'.
    unfold hostOf in Hh. injection Hh as Ha Hg _ Hs Ht _ _ _.
    constructor; rewrite ?Ha, ?Hg, ?Hs, ?Ht, ?Htl; try assumption.
    intros h' t' Hl'. specialize (H4 _ _ Hl').
    destruct t'; [|exact H4]. destruct H4. split; [assumption|lia].
Qed.

Lemma Loops_start config d e :
  isGameActive e = false -> Loops e -> Loops (start config d e).
Proof.
  intros Hoff HL. pose proof (loops_inactive e HL Hoff) as Hempty.
  pose proof (Handles_start config d e (loops_handles e HL)) as HH.
  destruct (start_effect config d e)
    as ((_ & _ & _ & Hact & Htl) & _ & _ & _ & _ & Ht).
  cbv zeta in Hact, Htl, Ht. rewrite Hempty in Ht.
  constructor; [exact HH|rewrite Hact; discriminate| |].
  - intros _.
    destruct (timeLimit_or_60 (Config.timeLimit config) >? 0);
      destruct Ht as (-> & _ & _ & ->); eexists _, _;
      (split; [reflexivity|]); apply lookup_insert_eq.
  - intros h t. rewrite Htl.
    destruct (Z.gtb_spec (timeLimit_or_60 (Config.timeLimit config)) 0);
      destruct Ht as (-> & _ & -> & ->); intros Hl;
      repeat (apply lookup_insert_Some in Hl as [[<- <-]|[_ Hl]]; [auto|]);
      now rewrite lookup_empty in Hl.
Qed.

Lemma Loops_step c e :
  (is_Start c = true -> isGameActive e = false) -> Loops e -> Loops (step c e).
Proof.
  intros Hc HL. destruct c as [config d| |p|cb|cb|cb|h d|h]; cbn [step].
  - apply Loops_start; [now apply Hc | exact HL].
  - now apply Loops_stop.
  - unfold onPoseDetected.
    repeat case_step; try assumption; now apply (Loops_ext e).
  - now apply (Loops_ext e).
  - now apply (Loops_ext e).
  - now apply (Loops_ext e).
  - unfold fireTimer. destruct (timers e !! h) as [[ms|ms]|] eqn:Hl; [| |assumption].
    + now apply (Loops_countdown_fires h ms).
    + now apply (Loops_spawn_fires d h ms).
  - unfold fireFrame. case_decide; [|assumption].
    apply Loops_gameLoop.
    destruct HL as [H1 H2 H3 H4]. constructor; try assumption.
    now apply Handles_cancelAnimationFrame.
Qed.

Lemma Loops_playable e : playable e -> Loops e.
Proof.
  induction 1 as [|c e Hp IH Hc]; [apply Loops_new | now apply Loops_step].
Qed.

(** X8: when [start] is only called on an engine that is not active, the
    engine never has two timers of a kind.  While it is not active no timer
    is live.  While it is active exactly one run of [spawnLoop] is pending,
    the one [itemSpawnTimer] names, and any other live timer is the countdown
    [gameTimer] names, which is live only with a positive remaining time.
    (Animation frames are another matter: see the restart after a bomb.) *)
Theorem X8_one_loop_of_a_kind :
  forall e,
    playable e ->
    (isGameActive e = false -> timers e = ∅)
    /\ (isGameActive e = true ->
        exists hs ms,
          itemSpawnTimer e = Some hs
          /\ timers e !! hs = Some (Timeout ms)
          /\ forall h t,
               timers e !! h = Some t ->
               h = hs
               \/ (gameTimer e = Some h
                   /\ (exists ms', t = Interval ms')
                   /\ 0 < timeLimit e)).
Proof.
  intros e Hp. pose proof (Loops_playable e Hp) as [H1 H2 H3 H4].
  split; [exact H2|]. intros Hact.
  destruct (H3 Hact) as (hs & ms & Hs & Hl).
  exists hs, ms. split; [exact Hs|]. split; [exact Hl|].
  intros h t Hlt. pose proof (H4 h t Hlt) as Ho.
  destruct t as [ms'|ms'].
  - right. destruct Ho as [Hg Hpos]. split; [exact Hg|]. split; [|exact Hpos].
    now exists ms'.
  - left. congruence.
Qed.

Lemma X8_one_loop_of_a_kind_witness :
  let e := step (Start (Config.mk (Number 60)) (appleDraw 0)) new_GameEngine in
  timers (step Stop e) = ∅
  /\ exists hs ms, itemSpawnTimer e = Some hs /\ timers e !! hs = Some (Timeout ms).
Proof.
  intros e.
  assert (Hp : playable e).
  { apply playable_step; [apply playable_new | reflexivity]. }
  assert (Hp' : playable (step Stop e)).
  { apply playable_step; [exact Hp | discriminate]. }
  assert (Hon : isGameActive e = true) by (vm_compute; reflexivity).
  assert (Hoff : isGameActive (step Stop e) = false) by (vm_compute; reflexivity).
  split.
  - exact (proj1 (X8_one_loop_of_a_kind (step Stop e) Hp') Hoff).
  - destruct (proj2 (X8_one_loop_of_a_kind e Hp) Hon) as (hs & ms & H1 & H2 & _).
    exists hs, ms. split; [exact H1 | exact H2].
Defined.

(** ** An engine that is not active *)

Lemma inert_step c e :
  isGameActive e = false -> noInterval e -> passive c = true ->
  visible (step c e) = visible e
  /\ isGameActive (step c e) = false
  /\ noInterval (step c e).
Proof.
  intros Hoff Hno Hc.
  destruct c as [config d| |p|cb|cb|cb|h d|h]; try discriminate; cbn [step].
  - unfold onPoseDetected. rewrite Hoff. cbn [negb]. auto.
  - unfold fireTimer. destruct (timers e !! h) as [[ms|ms]|] eqn:Hl.
    + now destruct (Hno h ms).
    + unfold spawnLoop. eng. rewrite Hoff. cbn [negb].
      repeat split; [exact Hoff|].
      intros h' ms' Hl'. eng. apply lookup_delete_Some in Hl' as [_ Hl'].
      now destruct (Hno h' ms').
    + auto.
  - unfold fireFrame. case_decide; [|auto].
    unfold gameLoop. eng. rewrite Hoff. cbn [negb]. auto.
Qed.

Lemma inert_run cs e :
  isGameActive e = false -> noInterval e -> forallb passive cs = true ->
  visible (run cs e) = visible e.
Proof.
  revert e. induction cs as [|c cs IH]; intros e Hoff Hno Hcs; [reflexivity|].
  cbn [forallb] in Hcs. apply andb_true_iff in Hcs as [Hc Hcs].
  destruct (inert_step c e Hoff Hno Hc) as (Hv & Hoff' & Hno').
  change (run (c :: cs) e) with (run cs (step c e)).
  now rewrite IH.
Qed.

(** X9: an engine that is not active and has no interval live is inert: no
    callback the host may still run, and no pose or key input, changes
    score, level, remaining time, basket or items, makes it active, or emits
    anything.  Pending spawn timeouts and animation frames are harmless; only
    a countdown interval, which tests nothing, is not. *)
Theorem X9_inactive_engine_is_inert :
  forall e cs,
    isGameActive e = false ->
    noInterval e ->
    forallb passive cs = true ->
    visible (run cs e) = visible e.
Proof. intros e cs. apply inert_run. Qed.

Lemma X9_inactive_engine_is_inert_witness :
  let e := step (FireFrame 1030) (run bombScript new_GameEngine) in
  let cs := [FireFrame 1031; FireTimer 13 (appleDraw 12); OnPoseDetected "Left";
             FireFrame 1032] in
  visible (run cs e) = visible e.
Proof.
  intros e cs. apply X9_inactive_engine_is_inert.
  - vm_compute. reflexivity.
  - intros h ms. vm_compute. discriminate.
  - reflexivity.
Defined.

(** X10: in a game played with one [start] at a time, the end is final.  Once
    the engine is not active, after [stop], after the countdown has run out
    or after the tick that collected a bomb, no timer or frame the host still
    runs and no pose changes what can be observed of it: score, level,
    remaining time, basket, items and what was emitted. *)
Theorem X10_game_over_is_final :
  forall e cs,
    playable e ->
    isGameActive e = false ->
    forallb passive cs = true ->
    visible (run cs e) = visible e.
Proof.
  intros e cs Hp Hoff Hcs. apply inert_run; try assumption.
  intros h ms. rewrite (loops_inactive e (Loops_playable e Hp) Hoff).
  now rewrite lookup_empty.
Qed.

Lemma X10_game_over_is_final_witness :
  let e := step Stop (step (Start (Config.mk (Number 60)) (appleDraw 0)) new_GameEngine) in
  let cs := [FireFrame 1; FireTimer 2 (appleDraw 1); FireTimer 1 (appleDraw 2);
             OnPoseDetected "Right"] in
  visible (run cs e) = visible e.
Proof.
  intros e cs.
  assert (Hp : playable e).
  { apply playable_step; [|discriminate].
    apply playable_step; [apply playable_new | reflexivity]. }
  assert (Hoff : isGameActive e = false) by (vm_compute; reflexivity).
  exact (X10_game_over_is_final e cs Hp Hoff eq_refl).
Defined.

(** ** Spawning *)






Lemma lane_of_draw u :
  (0 <= u)%Q -> (u < 1)%Q -> 0 <= Qfloor (u * 3) <= 2.
Proof.
  intros H0 H1. split.
  - change 0 with (Qfloor 0). apply Qfloor_resp_le. lra.
  - assert (Hlt : (inject_Z (Qfloor (u * 3)) < inject_Z 3)%Q).
    { apply Qle_lt_trans with (u * 3)%Q; [apply Qfloor_le|].
      change (inject_Z 3) with 3%Q. lra. }
    rewrite <- Zlt_Qlt in Hlt. lia.
Qed.

(** X12: what [spawnItem] makes.  For a draw [Math.random] can produce it
    appends one item and touches no other item: in lane 0, 1 or 2, at
    y = -50, with the type and the points of one row of the table and that
    row's speed plus half the level. *)
Theorem X12_spawned_item :
  forall d e,
    validDraw d ->
    exists item,
      items (spawnItem d e) = items e ++ [item]
      /\ 0 <= Item.lane item <= 2
      /\ Item.y item = (-50)%Q
      /\ (exists row,
            row ∈ itemTypes
            /\ Item.type item = ItemType.type row
            /\ Item.score item = ItemType.score row
            /\ Item.speed item
               = (ItemType.speed row + inject_Z (level e) * 0.5)%Q)
      /\ visible (spawnItem d e)
         = visible (set_items (items e ++ [item]) e).
Proof.
  intros d e (Hl0 & Hl1 & _ & _). eexists. split; [apply spawnItem_items|].
  cbn [Item.lane Item.y Item.type Item.score Item.speed].
  split; [now apply lane_of_draw|]. split; [reflexivity|]. split.
  - exists (spawnType (u_type d) (level e)).
    split; [apply spawnType_in_table|]. repeat split.
  - reflexivity.
Qed.

Lemma X12_spawned_item_witness :
  exists item,
    items (spawnItem (mkDraw 0.99 0.7 5) (set_level 2 new_GameEngine)) = [item]
    /\ 0 <= Item.lane item <= 2.
Proof.
  assert (Hv : validDraw (mkDraw 0.99 0.7 5)).
  { repeat split; cbn; reflexivity || discriminate. }
  destruct (X12_spawned_item (mkDraw 0.99 0.7 5) (set_level 2 new_GameEngine) Hv)
    as (item & H1 & H2 & _).
  exists item. split; [exact H1 | exact H2].
Defined.

(** ** The shape of the state *)

Lemma game_items e1 e2 : game e1 = game e2 -> items e1 = items e2.
Proof. unfold game. now intros [= _ _ -> _ _]. Qed.

Lemma game_score e1 e2 : game e1 = game e2 -> score e1 = score e2.
Proof. unfold game. now intros [= -> _ _ _ _]. Qed.

Lemma gameLoop_fields e :
  isGameActive e = true ->
  score (gameLoop e)
  = score e + total (Item.score <$> filter (fun it => isBomb it = false) (hitsOf e))
  /\ basketPosition (gameLoop e) = basketPosition e
  /\ items (gameLoop e)
     = filter (fun it => collides (basketPosition e) it = false)
         (filter (fun it => escaped it = false) (advance <$> items e)).
Proof.
  intros Hact. rewrite (gameLoop_eq e Hact). unfold hitsOf.
  set (b := basketPosition e).
  set (u := filter (fun it => escaped it = false) (advance <$> items e)).
  pose proof (collectAll_rest b u e) as Hrest.
  unfold restOf in Hrest. injection Hrest as _ Hb _ _ _ _ _ _ _.
  unfold reschedule, notifyStateUpdate. eng.
  case_step; eng; (split; [apply collectAll_score|]); (split; [exact Hb|]);
    reflexivity.
Qed.

Lemma countdown_basketPosition e :
  basketPosition (countdown e) = basketPosition e.
Proof.
  unfold countdown. cbv zeta.
  assert (Hb : basketPosition (notifyStateUpdate (set_timeLimit (timeLimit e - 1) e))
               = basketPosition e) by (by_cases; reflexivity).
  match goal with |- basketPosition (if ?c then _ else _) = _ => destruct c end.
  - now rewrite (proj1 (proj2 (proj2 (proj2 (stop_fields _))))).
  - exact Hb.
Qed.

Lemma spawnLoop_fields d e :
  score (spawnLoop d e) = score e
  /\ basketPosition (spawnLoop d e) = basketPosition e
  /\ items (spawnLoop d e)
     = if isGameActive e then items (spawnItem d e) else items e.
Proof.
  unfold spawnLoop, spawnItem. destruct (isGameActive e); cbn [negb]; eng;
    repeat split; reflexivity.
Qed.

(** Where the items of the next state come from. *)
Lemma items_step c e :
  items (step c e) = items e
  \/ (exists config d,
        c = Start config d
        /\ items (step c e)
           = [Item.mk (nextOid e) (u_id d) "apple" 100 5.5
                (Qfloor (u_lane d * 3)) (-44.5)])
  \/ (exists h d, c = FireTimer h d /\ items (step c e) = items (spawnItem d e))
  \/ items (step c e)
     = filter (fun it => collides (basketPosition e) it = false)
         (filter (fun it => escaped it = false) (advance <$> items e)).
Proof.
  destruct c as [config d| |p|cb|cb|cb|h d|h]; cbn [step];
    try (left; reflexivity).
  - right; left. exists config, d. split; [reflexivity|].
    now destruct (start_effect config d e) as (_ & Hi & _).
  - left. apply stop_fields.
  - left. exact (game_items _ _ (game_onPoseDetected p e)).
  - unfold fireTimer. destruct (timers e !! h) as [[ms|ms]|];
      [left; exact (game_items _ _ (game_countdown e)) | | left; reflexivity].
    destruct (spawnLoop_fields d (clearHandle h e)) as (_ & _ & Hi).
    rewrite Hi. eng. destruct (isGameActive e); [|left; reflexivity].
    right; right; left. exists h, d. split; reflexivity.
  - unfold fireFrame. case_decide; [|left; reflexivity].
    destruct (isGameActive e) eqn:Hact.
    + right; right; right.
      now destruct (gameLoop_fields (cancelAnimationFrame h e) Hact) as (_ & _ & Hi).
    + left. unfold gameLoop. eng. rewrite Hact. reflexivity.
Qed.

Lemma Forall_tick (P : Item.t -> Prop) b l :
  (forall it, P it -> escaped (advance it) = false -> P (advance it)) ->
  Forall P l ->
  Forall P (filter (fun it => collides b it = false)
              (filter (fun it => escaped it = false) (advance <$> l))).
Proof.
  intros Hadv Hl. apply Forall_forall. intros it Hin.
  apply list_elem_of_filter in Hin as [_ Hin].
  apply list_elem_of_filter in Hin as [Hesc Hin].
  apply list_elem_of_fmap in Hin as (it0 & -> & Hin0).
  apply Hadv; [|assumption].
  rewrite Forall_forall in Hl. now apply Hl.
Qed.

Lemma wellFormed_advance it :
  wellFormed it -> escaped (advance it) = false -> wellFormed (advance it).
Proof.
  intros [Hrow Hs [Hy0 Hy1]] Hesc. constructor.
  - exact Hrow.
  - exact Hs.
  - cbn [advance Item.set_y Item.y Item.speed] in *. split; [lra|].
    destruct (Qlt_le_dec 600 (Item.y it + Item.speed it)) as [Hlt|Hle];
      [|exact Hle].
    assert (He : escaped (advance it) = true) by (apply escaped_iff; exact Hlt).
    congruence.
Qed.

Lemma row_bounds row :
  row ∈ itemTypes -> (100 | ItemType.score row) /\ (5 <= ItemType.speed row)%Q.
Proof.
  intros Hin. apply list_elem_of_In in Hin. cbn in Hin.
  destruct Hin as [<-|[<-|[<-|[]]]]; cbn [ItemType.score ItemType.speed];
    (split; [|discriminate]).
  - now exists 1.
  - now exists 2.
  - now exists 0.
Qed.

Lemma wellFormed_score it : wellFormed it -> (100 | Item.score it).
Proof.
  intros [(row & Hin & _ & ->) _ _]. now apply row_bounds.
Qed.

Lemma wellFormed_spawnItem d e :
  1 <= level e -> Forall wellFormed (items e) ->
  Forall wellFormed (items (spawnItem d e)).
Proof.
  intros Hl Hi. rewrite spawnItem_items. apply Forall_app. split; [exact Hi|].
  apply Forall_singleton. constructor;
    cbn [Item.type Item.score Item.speed Item.y].
  - exists (spawnType (u_type d) (level e)).
    split; [apply spawnType_in_table|]. split; reflexivity.
  - pose proof (proj2 (row_bounds _ (spawnType_in_table (u_type d) (level e)))) as Hs.
    assert (H1 : (1 <= inject_Z (level e))%Q).
    { change 1%Q with (inject_Z 1). now rewrite <- Zle_Qle. }
    lra.
  - split; discriminate.
Qed.

Lemma total_divide n l : Forall (fun x => (n | x)) l -> (n | total l).
Proof.
  induction 1 as [|x l Hx _ IH]; [apply Z.divide_0_r|].
  change (total (x :: l)) with (x + total l). now apply Z.divide_add_r.
Qed.

Lemma Shape_step c e : Shape e -> Shape (step c e).
Proof.
  intros [Hl Hb Hs Hi]. constructor.
  - destruct (is_Start c) eqn:Hc.
    + destruct c as [config d| | | | | | |]; try discriminate. cbn [step].
      destruct (start_effect config d e) as ((_ & -> & _) & _). lia.
    + pose proof (step_level_mono c e Hc). lia.
  - destruct c as [config d| |p|cb|cb|cb|h d|h]; cbn [step]; try assumption.
    + destruct (start_effect config d e) as ((_ & _ & -> & _) & _). lia.
    + now rewrite (proj1 (proj2 (proj2 (proj2 (stop_fields e))))).
    + unfold onPoseDetected. repeat case_step; eng; try assumption; lia.
    + unfold fireTimer. destruct (timers e !! h) as [[ms|ms]|]; [| |assumption].
      * now rewrite countdown_basketPosition.
      * now rewrite (proj1 (proj2 (spawnLoop_fields d (clearHandle h e)))).
    + unfold fireFrame. case_decide; [|assumption].
      destruct (isGameActive e) eqn:Hact.
      * now rewrite (proj1 (proj2 (gameLoop_fields (cancelAnimationFrame h e) Hact))).
      * unfold gameLoop. eng. now rewrite Hact.
  - destruct c as [config d| |p|cb|cb|cb|h d|h]; cbn [step]; try assumption.
    + destruct (start_effect config d e) as ((-> & _) & _). apply Z.divide_0_r.
    + now rewrite (proj1 (stop_fields e)).
    + now rewrite (game_score _ _ (game_onPoseDetected p e)).
    + unfold fireTimer. destruct (timers e !! h) as [[ms|ms]|]; [| |assumption].
      * now rewrite (game_score _ _ (game_countdown e)).
      * now rewrite (proj1 (spawnLoop_fields d (clearHandle h e))).
    + unfold fireFrame. case_decide; [|assumption].
      destruct (isGameActive e) eqn:Hact.
      * rewrite (proj1 (gameLoop_fields (cancelAnimationFrame h e) Hact)).
        apply Z.divide_add_r; [assumption|].
        apply total_divide, Forall_fmap, Forall_forall. intros it Hin.
        apply list_elem_of_filter in Hin as [_ Hin]. unfold hitsOf in Hin.
        apply list_elem_of_filter in Hin as [_ Hin].
        apply list_elem_of_filter in Hin as [Hesc Hin].
        apply list_elem_of_fmap in Hin as (it0 & -> & Hin0).
        cbn [cancelAnimationFrame items set_frames] in Hin0.
        rewrite Forall_forall in Hi.
        apply (wellFormed_score (advance it0)), wellFormed_advance; auto.
      * unfold gameLoop. eng. now rewrite Hact.
  - destruct (items_step c e) as [-> | [(config & d & -> & ->) | [(h & d & -> & ->) | ->]]].
    + assumption.
    + apply Forall_singleton. constructor;
        cbn [Item.type Item.score Item.speed Item.y].
      * exists itemTypes_0. split; [apply list_elem_of_In; now left|].
        split; reflexivity.
      * discriminate.
      * split; discriminate.
    + now apply wellFormed_spawnItem.
    + apply Forall_tick; [exact wellFormed_advance | assumption].
Qed.

Lemma Shape_new : Shape new_GameEngine.
Proof.
  constructor; cbn.
  - lia.
  - lia.
  - apply Z.divide_0_r.
  - constructor.
Qed.

Lemma Shape_reachable e : reachable e -> Shape e.
Proof. induction 1; [apply Shape_new | now apply Shape_step]. Qed.

(** X13: whatever is called on an engine, in whatever order, the level is at
    least 1, the basket is in lane 0, 1 or 2, the score is a multiple of 100,
    and every item carries the type and the points of one row of the table,
    falls by at least 5.5 a tick and is between y = -50 and y = 600. *)
Theorem X13_state_shape :
  forall e,
    reachable e ->
    1 <= level e
    /\ 0 <= basketPosition e <= 2
    /\ (100 | score e)
    /\ Forall wellFormed (items e).
Proof.
  intros e H. destruct (Shape_reachable e H) as [H1 H2 H3 H4]. auto.
Qed.

Lemma X13_state_shape_witness :
  let e := run catchScript new_GameEngine in
  1 <= level e
  /\ 0 <= basketPosition e <= 2
  /\ (100 | score e)
  /\ Forall wellFormed (items e).
Proof.
  intros e. apply X13_state_shape. apply reachable_run, reachable_new.
Defined.

(** ** Lanes *)

Lemma inLane_step c e :
  validCall c -> Forall inLane (items e) -> Forall inLane (items (step c e)).
Proof.
  intros Hc Hi.
  destruct (items_step c e) as [-> | [(config & d & -> & ->) | [(h & d & -> & ->) | ->]]].
  - assumption.
  - destruct Hc as (H0 & H1 & _). apply Forall_singleton.
    now apply lane_of_draw.
  - destruct Hc as (H0 & H1 & _). rewrite spawnItem_items.
    apply Forall_app. split; [assumption|]. apply Forall_singleton.
    now apply lane_of_draw.
  - apply Forall_tick; [|assumption]. intros it H _. exact H.
Qed.

Lemma inLane_run cs e :
  Forall validCall cs -> Forall inLane (items e) -> Forall inLane (items (run cs e)).
Proof.
  revert e. induction cs as [|c cs IH]; intros e Hcs Hi; [assumption|].
  apply Forall_cons in Hcs as [Hc Hcs]. cbn. apply IH; [assumption|].
  now apply inLane_step.
Qed.

(** X14: as long as every draw is one [Math.random] can produce (at least 0
    and below 1), every item on the board is in lane 0, 1 or 2, so in a lane
    the basket can reach. *)
Theorem X14_items_in_lanes :
  forall cs,
    Forall validCall cs ->
    Forall inLane (items (run cs new_GameEngine)).
Proof. intros cs Hcs. apply inLane_run; [assumption | constructor]. Qed.

Lemma X14_items_in_lanes_witness :
  Forall inLane
    (items (run [Start (Config.mk (Number 60)) (mkDraw 0.99 0.5 1);
                 FireTimer 2 (mkDraw 0 0.95 2)] new_GameEngine)).
Proof.
  apply X14_items_in_lanes.
  repeat constructor; cbn; discriminate.
Defined.

(** ** The order of the items *)

Lemma StronglySorted_sublist {A} (R : A -> A -> Prop) (l1 l2 : list A) :
  l1 `sublist_of` l2 -> StronglySorted R l2 -> StronglySorted R l1.
Proof.
  induction 1 as [|x l1 l2 Hsub IH|x l1 l2 Hsub IH]; intros Hs.
  - constructor.
  - apply StronglySorted_cons in Hs as [Hx Hs]. apply StronglySorted_cons.
    split; [|now apply IH].
    rewrite Forall_forall in *. intros y Hy. apply Hx.
    eapply elem_of_sublist; eassumption.
  - apply StronglySorted_cons in Hs as [_ Hs]. now apply IH.
Qed.

Lemma inSpawnOrder_step c e : Inv e -> inSpawnOrder e -> inSpawnOrder (step c e).
Proof.
  intros HI Hs. unfold inSpawnOrder in *.
  destruct (items_step c e) as [-> | [(config & d & -> & ->) | [(h & d & -> & ->) | ->]]].
  - assumption.
  - repeat constructor.
  - rewrite spawnItem_items, fmap_app. apply StronglySorted_app_2.
    + intros o1 o2 H1 H2. cbn in H2. apply list_elem_of_singleton in H2 as ->.
      pose proof (inv_oid e HI) as Ho. unfold oids in Ho.
      rewrite fmap_app, Forall_app, Forall_forall in Ho. now apply Ho.
    + assumption.
    + repeat constructor.
  - eapply StronglySorted_sublist; [|exact Hs].
    etransitivity; [|apply oid_updated_sublist].
    apply fmap_sublist, sublist_filter.
Qed.

Lemma inSpawnOrder_reachable e : reachable e -> inSpawnOrder e.
Proof.
  induction 1 as [|c e He IH]; [constructor|].
  apply inSpawnOrder_step; [now apply Inv_reachable | assumption].
Qed.

(** X15: the board lists its items oldest first.  No method reorders the
    items: a new one goes to the end, the others are only moved down or
    taken out.  (With the downward loops this means that, within one tick,
    the youngest colliding item is collected first.) *)
Theorem X15_items_oldest_first :
  forall e, reachable e -> StronglySorted lt (Item.oid <$> items e).
Proof. exact inSpawnOrder_reachable. Qed.

Lemma X15_items_oldest_first_witness :
  StronglySorted lt (Item.oid <$> items (run catchScript new_GameEngine)).
Proof. apply X15_items_oldest_first. apply reachable_run, reachable_new. Defined.

(** ** How long an item stays *)

Lemma fall_step (q : Q) e :
  Forall (fun it => (5.5 <= Item.speed it)%Q /\ (q <= Item.y it)%Q) (items e) ->
  Forall (fun it => (5.5 <= Item.speed it)%Q /\ (q + 5.5 <= Item.y it)%Q
                    /\ (Item.y it <= 600)%Q)
    (items (updateItems e)).
Proof.
  intros H. rewrite updateItems_spec. eng.
  apply Forall_forall. intros it Hin.
  apply list_elem_of_filter in Hin as [Hesc Hin].
  apply list_elem_of_fmap in Hin as (it0 & -> & Hin0).
  rewrite Forall_forall in H. destruct (H it0 Hin0) as [Hs Hy].
  cbn [advance Item.set_y Item.y Item.speed] in *.
  split; [exact Hs|]. split; [lra|].
  destruct (Qlt_le_dec 600 (Item.y it0 + Item.speed it0)) as [Hlt|Hle];
    [|exact Hle].
  assert (He : escaped (advance it0) = true) by (apply escaped_iff; exact Hlt).
  congruence.
Qed.

Lemma fall_iter n e :
  Forall (fun it => (5.5 <= Item.speed it)%Q /\ (-50 <= Item.y it)%Q) (items e) ->
  Forall (fun it => (5.5 <= Item.speed it)%Q
                    /\ (-50 + inject_Z (Z.of_nat (S n)) * 5.5 <= Item.y it)%Q
                    /\ (Item.y it <= 600)%Q)
    (items (Nat.iter (S n) updateItems e)).
Proof.
  intros H. induction n as [|n IH].
  - cbn [Nat.iter nat_rect]. eapply Forall_impl; [apply (fall_step (-50)), H|].
    cbn beta. intros it (Hs & Hy & Hy'). repeat split; try assumption;
      change (inject_Z (Z.of_nat 1)) with 1%Q; lra.
  - change (Nat.iter (S (S n)) updateItems e)
      with (updateItems (Nat.iter (S n) updateItems e)).
    eapply Forall_impl.
    + apply (fall_step (-50 + inject_Z (Z.of_nat (S n)) * 5.5)).
      eapply Forall_impl; [exact IH|]. cbn beta. intros it (Hs & Hy & _). auto.
    + cbn beta. intros it (Hs & Hy & Hy'). repeat split; try assumption.
      rewrite (Nat2Z.inj_succ (S n)). unfold Z.succ. rewrite inject_Z_plus.
      change (inject_Z 1) with 1%Q. lra.
Qed.

(** X16: no item stays on the board for more than 118 ticks.  Whatever the
    state, 119 or more position updates leave no item that was there; and
    118 are not always enough (an apple spawned at level 1 is still there). *)
Theorem X16_items_leave :
  (forall e n,
     reachable e -> (119 <= n)%nat -> items (Nat.iter n updateItems e) = [])
  /\ (exists e, reachable e /\ items (Nat.iter 118 updateItems e) <> []).
Proof.
  split.
  - intros e n Hr Hn. destruct n as [|n]; [lia|].
    assert (H : Forall (fun it => (5.5 <= Item.speed it)%Q /\ (-50 <= Item.y it)%Q)
                  (items e)).
    { eapply Forall_impl; [exact (shape_items e (Shape_reachable e Hr))|].
      intros it [_ Hs [Hy _]]. auto. }
    apply (fall_iter n) in H.
    destruct (items (Nat.iter (S n) updateItems e)) as [|it l]; [reflexivity|].
    apply Forall_cons in H as [(_ & Hy & Hy') _]. exfalso.
    assert (Hq : (inject_Z 119 <= inject_Z (Z.of_nat (S n)))%Q)
      by (rewrite <- Zle_Qle; lia).
    change (inject_Z 119) with 119%Q in Hq. lra.
  - exists (run [Start (Config.mk (Number 60)) (appleDraw 0);
                 FireTimer 2 (appleDraw 1)] new_GameEngine).
    split; [apply reachable_run, reachable_new|].
    vm_compute. discriminate.
Qed.

Lemma X16_items_leave_witness :
  let e := run catchScript new_GameEngine in
  items (Nat.iter 119 updateItems e) = [].
Proof.
  intros e. apply (proj1 X16_items_leave).
  - apply reachable_run, reachable_new.
  - lia.
Defined.

(** ** Passing the basket *)

(** X17: an item cannot fall past the basket in one step unless it moves 60
    or more a tick.  In an active engine, an item in the basket's lane that
    is at or above y = 470 and crosses that line in this tick at a speed
    below 60 is collected in this tick and is off the board after it. *)
Theorem X17_no_tunnelling :
  forall e item,
    isGameActive e = true ->
    item ∈ items e ->
    Item.lane item = basketPosition e ->
    (Item.y item <= 470)%Q ->
    (470 < Item.y item + Item.speed item)%Q ->
    (Item.speed item < 60)%Q ->
    advance item ∈ collected (log (gameLoop e))
    /\ advance item ∉ items (gameLoop e).
Proof.
  intros e item Hact Hin Hlane Hy Hy' Hs.
  assert (Hc : collides (basketPosition e) (advance item) = true).
  { apply collides_iff. cbn [advance Item.set_y Item.y Item.lane].
    split; [|exact Hlane]. apply Qabs_Qlt_condition. split; lra. }
  assert (He : escaped (advance item) = false).
  { destruct (escaped (advance item)) eqn:E; [|reflexivity].
    apply escaped_iff in E. cbn [advance Item.set_y Item.y] in E. lra. }
  destruct (gameLoop_tick e Hact) as [Hi Hl].
  rewrite updateItems_spec in Hi, Hl. eng. split.
  - rewrite Hl. apply elem_of_app. right. apply elem_of_reverse.
    apply list_elem_of_filter. split; [exact Hc|].
    apply list_elem_of_filter. split; [exact He|].
    apply list_elem_of_fmap. now exists item.
  - rewrite Hi. intros Hin'. apply list_elem_of_filter in Hin' as [Hn _].
    congruence.
Qed.

Lemma X17_no_tunnelling_witness :
  let e := run catchScript new_GameEngine in
  exists item,
    item ∈ items e
    /\ advance item ∈ collected (log (gameLoop e))
    /\ advance item ∉ items (gameLoop e).
Proof.
  intros e.
  assert (Hact : isGameActive e = true) by (vm_compute; reflexivity).
  assert (Hex : exists item l, items e = item :: l).
  { destruct (items e) as [|item l] eqn:Hi; [vm_compute in Hi; discriminate|].
    now exists item, l. }
  destruct Hex as (item & l & Hi).
  assert (Hin : item ∈ items e) by (rewrite Hi; left).
  assert (Hitem : Item.lane item = basketPosition e
                  /\ (Item.y item <= 470)%Q
                  /\ (470 < Item.y item + Item.speed item)%Q
                  /\ (Item.speed item < 60)%Q).
  { vm_compute in Hi. injection Hi as Hitem _. subst item.
    repeat split; vm_compute; reflexivity || discriminate. }
  destruct Hitem as (Hlane & Hy & Hy' & Hs).
  exists item. split; [exact Hin|].
  exact (X17_no_tunnelling e item Hact Hin Hlane Hy Hy' Hs).
Defined.

(** ** Poses and keys *)

Lemma onPoseDetected_cases p e :
  onPoseDetected p e
  = if isGameActive e && knownPose p
    then set_basketPosition
           (if (p =? "Left")%string then 0
            else if (p =? "Center")%string then 1 else 2) e
    else e.
Proof.
  unfold onPoseDetected, knownPose.
  destruct (isGameActive e), (p =? "Left")%string, (p =? "Center")%string,
    (p =? "Right")%string; reflexivity.
Qed.

(** X18: pose names.  A name other than "Left", "Center" and "Right" (the
    comparison is case sensitive) changes nothing; for one of the three, only
    the last detection counts, whatever was detected before it; and on an
    engine that is not active no name moves the basket. *)
Theorem X18_pose_names :
  forall p q e,
    (knownPose p = false -> onPoseDetected p e = e)
    /\ (knownPose p = true ->
        onPoseDetected p (onPoseDetected q e) = onPoseDetected p e)
    /\ (isGameActive e = false -> onPoseDetected p e = e).
Proof.
  intros p q e. rewrite !onPoseDetected_cases. split; [|split].
  - intros ->. now rewrite andb_false_r.
  - intros Hp. rewrite Hp, !andb_true_r.
    destruct (isGameActive e) eqn:Hact; cbn [andb].
    + destruct (knownPose q); eng; rewrite Hact; reflexivity.
    + now rewrite Hact.
  - now intros ->.
Qed.

Lemma X18_pose_names_witness :
  let e := run catchScript new_GameEngine in
  onPoseDetected "left" e = e
  /\ onPoseDetected "Right" (onPoseDetected "Left" e) = onPoseDetected "Right" e.
Proof.
  intros e. split.
  - apply (proj1 (X18_pose_names "left" "" e)). reflexivity.
  - apply (proj1 (proj2 (X18_pose_names "Right" "Left" e))). reflexivity.
Defined.

Lemma lowerAscii_is (c t : ascii) :
  (nat_of_ascii t <? 65)%nat || (90 <? nat_of_ascii t)%nat = true ->
  Ascii.eqb (lowerAscii c) t
  = Ascii.eqb c t
    || ((65 <=? nat_of_ascii c)%nat && (nat_of_ascii c <=? 90)%nat
        && (nat_of_ascii c + 32 =? nat_of_ascii t)%nat).
Proof.
  intros Ht. unfold lowerAscii.
  destruct ((65 <=? nat_of_ascii c)%nat && (nat_of_ascii c <=? 90)%nat) eqn:Hup;
    cbn [andb]; [|now rewrite orb_false_r].
  apply andb_true_iff in Hup as [H1 H2].
  apply Nat.leb_le in H1, H2.
  assert (Hne : Ascii.eqb c t = false).
  { apply Ascii.eqb_neq. intros ->.
    apply orb_true_iff in Ht as [Ht|Ht]; apply Nat.ltb_lt in Ht; lia. }
  rewrite Hne. cbn [orb].
  destruct (Nat.eqb_spec (nat_of_ascii c + 32) (nat_of_ascii t)) as [E|E].
  - apply Ascii.eqb_eq. rewrite E. apply ascii_nat_embedding.
  - apply Ascii.eqb_neq. intros <-.
    rewrite nat_ascii_embedding in E by lia. congruence.
Qed.

Lemma upper_is (c : ascii) (T : ascii) :
  (65 <=? nat_of_ascii T)%nat && (nat_of_ascii T <=? 90)%nat = true ->
  (65 <=? nat_of_ascii c)%nat && (nat_of_ascii c <=? 90)%nat
  && (nat_of_ascii c + 32 =? nat_of_ascii T + 32)%nat
  = Ascii.eqb c T.
Proof.
  intros HT. destruct (Ascii.eqb_spec c T) as [->|Hne].
  - rewrite HT. cbn [andb]. apply Nat.eqb_refl.
  - destruct (Nat.eqb_spec (nat_of_ascii c + 32) (nat_of_ascii T + 32)) as [E|E];
      [|apply andb_false_r].
    exfalso. apply Hne.
    rewrite <- (ascii_nat_embedding c), <- (ascii_nat_embedding T).
    f_equal. lia.
Qed.

Lemma toLowerCase_is (key : string) (t T : ascii) :
  (nat_of_ascii t <? 65)%nat || (90 <? nat_of_ascii t)%nat = true ->
  (65 <=? nat_of_ascii T)%nat && (nat_of_ascii T <=? 90)%nat = true ->
  nat_of_ascii t = (nat_of_ascii T + 32)%nat ->
  (toLowerCase key =? String t "")%string
  = ((key =? String t "") || (key =? String T ""))%string.
Proof.
  intros Ht HT Hoff. destruct key as [|c [|c' rest]]; [reflexivity| |].
  - cbn [toLowerCase String.eqb].
    rewrite (lowerAscii_is c t Ht), Hoff, (upper_is c T HT).
    destruct (Ascii.eqb c t), (Ascii.eqb c T); reflexivity.
  - cbn [toLowerCase String.eqb].
    destruct (Ascii.eqb (lowerAscii c) t), (Ascii.eqb c t), (Ascii.eqb c T);
      reflexivity.
Qed.

(** X19: the keyboard.  The keys A, S and D, in either case, act as the poses
    "Left", "Center" and "Right"; every other key leaves the engine as it
    is. *)
Theorem X19_keyboard :
  forall key e,
    onKeydown key e
    = if ((key =? "a") || (key =? "A"))%string then onPoseDetected "Left" e
      else if ((key =? "s") || (key =? "S"))%string then onPoseDetected "Center" e
      else if ((key =? "d") || (key =? "D"))%string then onPoseDetected "Right" e
      else e.
Proof.
  intros key e. unfold onKeydown. cbv zeta.
  rewrite (toLowerCase_is key "a" "A"), (toLowerCase_is key "s" "S"),
    (toLowerCase_is key "d" "D") by reflexivity.
  reflexivity.
Qed.

(** ** What is drawn *)

(** X20: the page never draws the fallback symbol for an item of the board:
    every item has one of the three types [getItemEmoji] knows. *)
Theorem X20_item_symbols :
  forall e item,
    reachable e -> item ∈ items e ->
    getItemEmoji (Item.type item) ∈ ["🍎"; "🍊"; "💣"]
    /\ (getItemEmoji (Item.type item) = "💣" <-> isBomb item = true).
Proof.
  intros e item Hr Hin.
  pose proof (shape_items e (Shape_reachable e Hr)) as Hi.
  rewrite Forall_forall in Hi.
  destruct (Hi item Hin) as [(row & Hrow & Ht & _) _ _].
  unfold isBomb. rewrite Ht.
  apply list_elem_of_In in Hrow. cbn in Hrow.
  destruct Hrow as [<-|[<-|[<-|[]]]]; cbn [ItemType.type];
    (split; [apply list_elem_of_In; vm_compute; auto
            | vm_compute; split; congruence]).
Qed.

Lemma X20_item_symbols_witness :
  let e := run catchScript new_GameEngine in
  exists item,
    item ∈ items e
    /\ getItemEmoji (Item.type item) ∈ ["🍎"; "🍊"; "💣"]
    /\ (getItemEmoji (Item.type item) = "💣" <-> isBomb item = true).
Proof.
  intros e.
  assert (Hex : exists item l, items e = item :: l).
  { destruct (items e) as [|item l] eqn:Hi; [vm_compute in Hi; discriminate|].
    exists item, l. reflexivity. }
  destruct Hex as (item & l & Hi).
  assert (Hin : item ∈ items e) by (rewrite Hi; left).
  exists item. split; [exact Hin|].
  exact (X20_item_symbols e item (reachable_run _ _ reachable_new) Hin).
Defined.

(** ** Between two starts *)

Lemma total_nonneg l : Forall (fun x => 0 <= x) l -> 0 <= total l.
Proof.
  induction 1 as [|x l Hx _ IH]; [reflexivity|].
  change (total (x :: l)) with (x + total l). lia.
Qed.

Lemma wellFormed_points it : wellFormed it -> 0 <= Item.score it.
Proof.
  intros [(row & Hin & _ & ->) _ _].
  apply list_elem_of_In in Hin. cbn in Hin.
  destruct Hin as [<-|[<-|[<-|[]]]]; cbn; lia.
Qed.

Lemma score_step_mono c e :
  Shape e -> is_Start c = false -> score e <= score (step c e).
Proof.
  intros [_ _ _ Hi] Hc.
  destruct c as [config d| |p|cb|cb|cb|h d|h]; cbn [step];
    try discriminate; try reflexivity.
  - now rewrite (proj1 (stop_fields e)).
  - now rewrite (game_score _ _ (game_onPoseDetected p e)).
  - unfold fireTimer. destruct (timers e !! h) as [[ms|ms]|]; [| |reflexivity].
    + now rewrite (game_score _ _ (game_countdown e)).
    + now rewrite (proj1 (spawnLoop_fields d (clearHandle h e))).
  - unfold fireFrame. case_decide; [|reflexivity].
    destruct (isGameActive e) eqn:Hact.
    + rewrite (proj1 (gameLoop_fields (cancelAnimationFrame h e) Hact)).
      cbn [cancelAnimationFrame score set_frames].
      assert (H0 : 0 <= total (Item.score <$>
                         filter (fun it => isBomb it = false)
                           (hitsOf (cancelAnimationFrame h e)))); [|lia].
      apply total_nonneg, Forall_fmap, Forall_forall. intros it Hin.
      apply list_elem_of_filter in Hin as [_ Hin]. unfold hitsOf in Hin.
      apply list_elem_of_filter in Hin as [_ Hin].
      apply list_elem_of_filter in Hin as [Hesc Hin].
      apply list_elem_of_fmap in Hin as (it0 & -> & Hin0).
      cbn [cancelAnimationFrame items set_frames] in Hin0.
      rewrite Forall_forall in Hi.
      apply (wellFormed_points (advance it0)), wellFormed_advance; auto.
    + unfold gameLoop. eng. now rewrite Hact.
Qed.

Lemma timeLimit_step c e :
  is_Start c = false -> timeLimit (step c e) <= timeLimit e.
Proof.
  intros Hc.
  destruct c as [config d| |p|cb|cb|cb|h d|h]; cbn [step];
    try discriminate; try reflexivity.
  - now rewrite (proj1 (proj2 (proj2 (stop_fields e)))).
  - rewrite onPoseDetected_cases. now destruct (_ && _).
  - unfold fireTimer. destruct (timers e !! h) as [[ms|ms]|]; [| |reflexivity].
    + rewrite countdown_timeLimit. lia.
    + unfold spawnLoop, spawnItem. destruct (isGameActive _); reflexivity.
  - unfold fireFrame. case_decide; [|reflexivity].
    now rewrite gameLoop_timeLimit.
Qed.

(** X21: between two calls of [start] the game only moves forward: whatever
    else is called or fired, the score and the level do not fall and the
    remaining time does not rise. *)
Theorem X21_between_starts :
  forall cs e,
    reachable e ->
    forallb (fun c => negb (is_Start c)) cs = true ->
    score e <= score (run cs e)
    /\ level e <= level (run cs e)
    /\ timeLimit (run cs e) <= timeLimit e.
Proof.
  induction cs as [|c cs IH]; intros e Hr Hcs; [cbn; lia|].
  cbn [forallb] in Hcs. apply andb_true_iff in Hcs as [Hc Hcs].
  apply negb_true_iff in Hc.
  change (run (c :: cs) e) with (run cs (step c e)).
  destruct (IH (step c e) (reachable_step c e Hr) Hcs) as (H1 & H2 & H3).
  pose proof (score_step_mono c e (Shape_reachable e Hr) Hc).
  pose proof (step_level_mono c e Hc).
  pose proof (timeLimit_step c e Hc).
  lia.
Qed.

Lemma X21_between_starts_witness :
  let e := step (Start (Config.mk (Number 60)) (appleDraw 0)) new_GameEngine in
  let cs := [FireTimer 1 (appleDraw 1); OnPoseDetected "Left"; FireFrame 1; Stop] in
  score e <= score (run cs e)
  /\ level e <= level (run cs e)
  /\ timeLimit (run cs e) <= timeLimit e.
Proof.
  intros e cs.
  exact (X21_between_starts cs e (reachable_step _ _ reachable_new) eq_refl).
Defined.

(** ** Starting again after a bomb *)

(** X22: a game that a bomb ended leaves its animation loop behind.  The tick
    that collects the bomb stops the engine and then still requests a frame;
    the next [start] requests another one and remembers only that one.  So
    the new game has two loops pending, the old frame runs a tick of the new
    game when the host fires it, and [stop] cannot cancel it. *)
Theorem X22_restart_after_bomb :
  forall e config d,
    isGameActive e = true ->
    existsb isBomb (hitsOf e) = true ->
    let old := nextFrame e in
    let e1 := gameLoop e in
    let e2 := start config d e1 in
    isGameActive e1 = false
    /\ old ∈ frames e2 /\ S old ∈ frames e2
    /\ animationId e2 = Some (S old)
    /\ isGameActive e2 = true
    /\ step (FireFrame old) e2 = gameLoop (cancelAnimationFrame old e2)
    /\ old ∈ frames (stop e2).
Proof.
  intros e config d Hact Hbomb old e1 e2.
  pose proof (gameLoop_host e Hact) as Hh. rewrite Hbomb in Hh. fold e1 in Hh.
  destruct (stop_handles e) as (_ & _ & _ & _ & Hnf & Hoff).
  unfold hostOf, reschedule in Hh. eng.
  injection Hh as Ha1 _ _ _ _ _ Hf1 Hnf1.
  rewrite Hnf in Hf1, Hnf1. rewrite Hoff in Ha1.
  destruct (start_effect config d e1) as ((_ & _ & _ & Ha2 & _) & _ & _ & _
                                          & (Hf2 & _ & Hid2) & _).
  fold e2 in Ha2, Hf2, Hid2. rewrite Hf1, Hnf1 in Hf2. rewrite Hnf1 in Hid2.
  fold old in Hf2, Hid2.
  assert (Hold : old ∈ frames e2).
  { rewrite Hf2. apply elem_of_union_r, elem_of_union_l. now apply elem_of_singleton. }
  split; [exact Ha1|]. split; [exact Hold|].
  split; [rewrite Hf2; apply elem_of_union_l; now apply elem_of_singleton|].
  split; [exact Hid2|]. split; [exact Ha2|].
  split; [now apply fireFrame_live|].
  rewrite stop_frames, Hid2. cbn [truthyHandle from_option].
  apply elem_of_difference. split; [exact Hold|].
  intros Heq. apply elem_of_singleton in Heq. lia.
Qed.

Lemma X22_restart_after_bomb_witness :
  let e := run bombScript new_GameEngine in
  let old := nextFrame e in
  let e1 := gameLoop e in
  let e2 := start (Config.mk (Number 60)) (appleDraw 0) e1 in
  isGameActive e1 = false
  /\ old ∈ frames e2 /\ S old ∈ frames e2
  /\ animationId e2 = Some (S old)
  /\ isGameActive e2 = true
  /\ step (FireFrame old) e2 = gameLoop (cancelAnimationFrame old e2)
  /\ old ∈ frames (stop e2).
Proof.
  intros e.
  assert (Hact : isGameActive e = true) by (vm_compute; reflexivity).
  assert (Hbomb : existsb isBomb (hitsOf e) = true) by (vm_compute; reflexivity).
  exact (X22_restart_after_bomb e (Config.mk (Number 60)) (appleDraw 0) Hact Hbomb).
Defined.

(** ** What the callbacks are told *)

Lemma Told_same e1 e2 :
  (score e1, level e1, basketPosition e1, items e1, log e1)
  = (score e2, level e2, basketPosition e2, items e2, log e2) ->
  Told e1 -> Told e2.
Proof.
  intros [= Hs Hl Hb Hi Hlog] [H1 H2 H3 H4].
  constructor; rewrite <- ?Hs, <- ?Hl, <- ?Hb, <- ?Hi, <- ?Hlog; assumption.
Qed.

Lemma Told_notifyStateUpdate e : Told e -> Told (notifyStateUpdate e).
Proof.
  intros [H1 H2 H3 H4]. unfold notifyStateUpdate.
  destruct (onGameStateUpdate e); constructor; eng; try assumption.
  apply Forall_app. split; [assumption|]. apply Forall_singleton.
  cbn. auto.
Qed.

Lemma Told_stop e : Told e -> Told (stop e).
Proof.
  intros [H1 H2 H3 H4].
  destruct (stop_fields e) as (Hs & Hl & _ & Hb & Hi).
  constructor; rewrite ?Hs, ?Hl, ?Hb, ?Hi; try assumption.
  rewrite stop_log. apply Forall_app. split; [assumption|].
  destruct (onGameEnd e); [|constructor]. apply Forall_singleton. exact H1.
Qed.

Lemma addScore_fields points e :
  basketPosition (addScore points e) = basketPosition e
  /\ items (addScore points e) = items e
  /\ score (addScore points e) = score e + points
  /\ log (addScore points e)
     = log e ++ (if onScoreChange e
                 then [ScoreChange (score (addScore points e))
                         (level (addScore points e))]
                 else []).
Proof.
  unfold addScore. eng.
  repeat (case_step; eng); rewrite ?app_nil_r; repeat split; congruence.
Qed.

Lemma Told_addScore points e :
  0 <= points -> (100 | points) -> Told e -> Told (addScore points e).
Proof.
  intros Hp Hd [(Hs & Hc & Hl) H2 H3 H4].
  destruct (addScore_fields points e) as (Hb & Hi & Hsc & Hlog).
  destruct (addScore_level_score points e Hs Hp Hl) as [Hs' Hl'].
  assert (Hf : fits (score (addScore points e)) (level (addScore points e))).
  { split; [exact Hs'|]. split; [|exact Hl'].
    rewrite Hsc. now apply Z.divide_add_r. }
  constructor; rewrite ?Hb, ?Hi; try assumption.
  rewrite Hlog. apply Forall_app. split; [assumption|].
  destruct (onScoreChange e); [|constructor]. apply Forall_singleton. exact Hf.
Qed.

Lemma Told_emit ev e : eventOk ev -> Told e -> Told (emit ev e).
Proof.
  intros Hev [H1 H2 H3 H4]. constructor; eng; try assumption.
  apply Forall_app. split; [assumption|]. now apply Forall_singleton.
Qed.

Lemma Told_handleItemCollection item e :
  wellFormed item -> Told e -> Told (handleItemCollection item e).
Proof.
  intros Hw H. unfold handleItemCollection.
  destruct (Item.type item =? "bomb")%string.
  - apply Told_emit; [exact I|]. apply Told_stop. now apply Told_emit.
  - apply Told_addScore;
      [now apply wellFormed_points | now apply wellFormed_score |].
    now apply Told_emit.
Qed.

Lemma Told_collectAll b l e :
  Forall wellFormed l -> Told e -> Told (collectAll b l e).
Proof.
  intros Hl H. induction Hl as [|item l Hw _ IH]; [exact H|].
  rewrite collectAll_cons. destruct (collides b item); [|exact IH].
  now apply Told_handleItemCollection.
Qed.

Lemma Told_set_items l e : Forall wellFormed l -> Told e -> Told (set_items l e).
Proof. intros Hl [H1 H2 H3 H4]. constructor; eng; assumption. Qed.

Lemma Told_gameLoop e : Told e -> Told (gameLoop e).
Proof.
  intros H. destruct (isGameActive e) eqn:Hact;
    [|unfold gameLoop; now rewrite Hact].
  rewrite (gameLoop_eq e Hact).
  assert (Hu : Forall wellFormed
                 (filter (fun it => escaped it = false) (advance <$> items e))).
  { apply Forall_forall. intros it Hin.
    apply list_elem_of_filter in Hin as [Hesc Hin].
    apply list_elem_of_fmap in Hin as (it0 & -> & Hin0).
    apply wellFormed_advance; [|assumption].
    pose proof (told_items e H) as Hi. rewrite Forall_forall in Hi. now apply Hi. }
  match goal with
  | |- Told (reschedule ?x) => apply (Told_same x); [reflexivity|]
  end.
  apply Told_notifyStateUpdate, Told_set_items.
  - apply Forall_forall. intros it Hin.
    apply list_elem_of_filter in Hin as [_ Hin].
    rewrite Forall_forall in Hu. now apply Hu.
  - now apply Told_collectAll.
Qed.

Lemma fits_level s l : fits s l -> 1 <= l.
Proof.
  intros (Hs & _ & ->). pose proof (Z.div_pos s 500 Hs). lia.
Qed.

Lemma Told_spawnLoop d e : Told e -> Told (spawnLoop d e).
Proof.
  intros H. destruct (spawnLoop_fields d e) as (Hs & Hb & Hi).
  pose proof (spawnLoop_level d e) as Hl.
  destruct H as [H1 H2 H3 H4].
  constructor; rewrite ?Hs, ?Hl, ?Hb, ?Hi; try assumption.
  - destruct (isGameActive e); [|assumption].
    apply wellFormed_spawnItem; [|assumption]. exact (fits_level _ _ H1).
  - unfold spawnLoop, spawnItem. destruct (isGameActive e); eng; assumption.
Qed.

Lemma Told_countdown e : Told e -> Told (countdown e).
Proof.
  intros H. unfold countdown. cbv zeta.
  assert (H' : Told (notifyStateUpdate (set_timeLimit (timeLimit e - 1) e))).
  { apply Told_notifyStateUpdate. now apply (Told_same e). }
  match goal with |- Told (if ?c then _ else _) => destruct c end;
    [now apply Told_stop | exact H'].
Qed.

Lemma Told_start config d e : Told e -> Told (start config d e).
Proof.
  intros [H1 H2 H3 H4]. rewrite start_tick.
  apply Told_notifyStateUpdate, Told_gameLoop. unfold beforeFirstTick.
  apply Told_spawnLoop.
  match goal with
  | |- Told (if ?c then startTimer ?x else ?x) =>
      apply (Told_same x); [now destruct c|]
  end.
  constructor; eng.
  - split; [lia|]. split; [apply Z.divide_0_r | reflexivity].
  - lia.
  - constructor.
  - assumption.
Qed.

Lemma Told_step c e : Told e -> Told (step c e).
Proof.
  intros H. destruct c as [config d| |p|cb|cb|cb|h d|h]; cbn [step].
  - now apply Told_start.
  - now apply Told_stop.
  - rewrite onPoseDetected_cases. destruct (_ && _); [|assumption].
    destruct H as [H1 H2 H3 H4]. constructor; eng; try assumption.
    repeat case_step; lia.
  - now apply (Told_same e).
  - now apply (Told_same e).
  - now apply (Told_same e).
  - unfold fireTimer. destruct (timers e !! h) as [[ms|ms]|]; [| |assumption].
    + now apply Told_countdown.
    + apply Told_spawnLoop. now apply (Told_same e).
  - unfold fireFrame. case_decide; [|assumption].
    apply Told_gameLoop. now apply (Told_same e).
Qed.

Lemma Told_new : Told new_GameEngine.
Proof.
  constructor; cbn.
  - split; [lia|]. split; [apply Z.divide_0_r | reflexivity].
  - lia.
  - constructor.
  - constructor.
Qed.

Lemma Told_reachable e : reachable e -> Told e.
Proof. induction 1; [apply Told_new | now apply Told_step]. Qed.

(** X23: what the page is told is always a state of the game.  Every
    snapshot handed to the state-update callback, and every score and level
    handed to the score-change and game-end callbacks, has a score that is a
    non-negative multiple of 100 and the level that belongs to it (one more
    than the score divided by 500, rounded down); a snapshot also has the
    basket in lane 0, 1 or 2 and only items of the table's types that are
    between y = -50 and y = 600. *)
Theorem X23_notifications_fit :
  forall e, reachable e -> Forall eventOk (log e).
Proof. intros e H. exact (told_log e (Told_reachable e H)). Qed.

Lemma X23_notifications_fit_witness :
  Forall eventOk (log (step (FireFrame 1030) (run bombScript new_GameEngine))).
Proof.
  apply X23_notifications_fit. apply reachable_step, reachable_run, reachable_new.
Defined.
